(** * websockify: a WebSocket-to-TCP relay

    A verification development for [src/websockify.py].  The relay accepts a
    WebSocket, connects to [localhost:port] and runs two pumps, one per
    direction, until either side ends.

    The Python code is embedded shallowly.  A coroutine becomes a
    computation in a state-and-exception monad [M] over a [World].  The
    world holds the state of the objects the code uses, what the
    environment (starlette, asyncio, the two peers) will answer to each
    awaited call, and a [trace] of every call the code makes, in program
    order.  The three coroutines [forward_ws_to_tcp], [forward_tcp_to_ws]
    and [websockify] are translated statement by statement; the route
    handler [websocket_endpoint] and the server start-up are not part of
    the relay and are left out.

    What the development takes from the libraries:
    - [WebSocket.receive_bytes] returns the payload of the next message, or
      raises ([WebSocketDisconnect] when the client closes);
    - [StreamReader.read(n)] returns at most [n] bytes as soon as some are
      buffered and [b''] at end of stream, and raises the error the
      connection was lost with; it never looks at the transport, so that on
      a closing transport it still hands out what is buffered and then
      waits for the connection's end, which asyncio may defer; no data
      arrives on a closing transport;
    - [StreamWriter.write] hands bytes to the transport without suspending;
      when the socket refuses them the transport drops them and closes
      itself, and [write] still returns; on a closing transport the bytes
      are dropped;
    - [drain] resolves, raises or stays pending as the environment decides;
      when it raises an [Exception] the connection is lost and the
      transport is closing; a read that raises an [Exception] leaves the
      transport closing as well;
    - [wait_closed], [accept], [send_bytes] and [close] resolve, raise or
      stay pending as the environment decides;
    - [StreamWriter.close] closes the transport, both directions, and
      [is_closing] tells; [write_eof], which the code never calls, would
      shut the write direction alone;
    - [asyncio.wait(fs, return_when=FIRST_COMPLETED)] resumes the caller
      when one of [fs] is done and returns the done ones and the others;
      [Task.cancel] only requests cancellation;
    - [asyncio.CancelledError] derives from [BaseException], so that
      [except Exception] lets it through. *)

From Stdlib Require Import List String Ascii ZArith Lia Bool Arith.
From Stdlib Require Import Strings.Byte.
From ExtLib Require Import Structures.Monad.
Import ListNotations.
Import MonadNotation.
Local Open Scope monad_scope.
Local Open Scope string_scope.
Local Open Scope list_scope.

Set Implicit Arguments.

(** ** Python values *)

(** [bytes] objects. *)
Definition bytes := list byte.

(** Truthiness of a [bytes] object: [not data] holds exactly for [b'']. *)
Definition py_not (data : bytes) : bool :=
  match data with
  | [] => true
  | _ :: _ => false
  end.

(** The exception classes that can reach this module, with the part of
    Python's class hierarchy that its [except] clauses discriminate on. *)
Inductive pyclass : Type :=
| BaseException
| Exception
| OSError
| ConnectionError
| ConnectionRefusedError
| ConnectionResetError
| BrokenPipeError
| TimeoutError
| EOFError
| IncompleteReadError     (* asyncio.IncompleteReadError *)
| RuntimeError
| ValueError
| WebSocketDisconnect     (* starlette.websockets.WebSocketDisconnect *)
| CancelledError          (* asyncio.CancelledError *)
| KeyboardInterrupt.

Definition pyclass_eqb (c d : pyclass) : bool :=
  match c, d with
  | BaseException, BaseException | Exception, Exception | OSError, OSError
  | ConnectionError, ConnectionError
  | ConnectionRefusedError, ConnectionRefusedError
  | ConnectionResetError, ConnectionResetError
  | BrokenPipeError, BrokenPipeError | TimeoutError, TimeoutError
  | EOFError, EOFError | IncompleteReadError, IncompleteReadError
  | RuntimeError, RuntimeError | ValueError, ValueError
  | WebSocketDisconnect, WebSocketDisconnect
  | CancelledError, CancelledError
  | KeyboardInterrupt, KeyboardInterrupt => true
  | _, _ => false
  end.

(** The direct base class; [BaseException] is the root. *)
Definition base (c : pyclass) : option pyclass :=
  match c with
  | BaseException => None
  | Exception => Some BaseException
  | OSError => Some Exception
  | ConnectionError => Some OSError
  | ConnectionRefusedError => Some ConnectionError
  | ConnectionResetError => Some ConnectionError
  | BrokenPipeError => Some ConnectionError
  | TimeoutError => Some OSError
  | EOFError => Some Exception
  | IncompleteReadError => Some EOFError
  | RuntimeError => Some Exception
  | ValueError => Some Exception
  | WebSocketDisconnect => Some Exception
  | CancelledError => Some BaseException      (* since Python 3.8 *)
  | KeyboardInterrupt => Some BaseException
  end.

(** The hierarchy above is five classes deep. *)
Fixpoint issubclass_upto (depth : nat) (c d : pyclass) : bool :=
  pyclass_eqb c d ||
  match depth with
  | O => false
  | S depth' =>
      match base c with
      | Some b => issubclass_upto depth' b d
      | None => false
      end
  end.

Definition issubclass : pyclass -> pyclass -> bool := issubclass_upto 5.

(** A raised exception is identified by its class. *)
Definition exn := pyclass.

Definition isinstance (e : exn) (c : pyclass) : bool := issubclass e c.

(** [isinstance(e, (c1, c2, ...))]. *)
Definition isinstance_any (e : exn) (cs : list pyclass) : bool :=
  existsb (isinstance e) cs.

(** ** The environment *)

(** What an awaited call resolves to. *)
Inductive reply (A : Type) : Type :=
| Ok (a : A)
| Raise (e : exn).
Arguments Raise {A} e.

(** Handles.  One session owns one WebSocket and one TCP connection, so the
    handles carry no data: the objects they denote live in the [World]. *)
Inductive WebSocket : Type := the_websocket.
Inductive StreamReader : Type := the_reader.
Inductive StreamWriter : Type := the_writer.

(** State of the TCP transport shared by the reader and the writer, with
    what its socket will do.
    - [Established]: connected, and the socket takes whatever is sent.
    - [Failing n]: connected, but the peer is going away: the socket takes
      [n] more sends and the send after those fails.  The transport does not
      know yet, and [is_closing] is false.
    - [WriteShut]: after [StreamWriter.write_eof], which shuts the write
      direction only (a half-close).
    - [Closing]: closed, by [StreamWriter.close] or by the transport itself
      after a fatal error on its socket: [is_closing] is true, what is
      written is dropped and no data is received any more. *)
Inductive transport_state : Type :=
| Established
| Failing (sends : nat)
| WriteShut
| Closing.

(** What reaches the reader while it waits for data. *)
Inductive arrival : Type :=
| Feed (data : bytes)      (* a segment arrives *)
| FeedEof                  (* the stream ends: the peer closes its side, or
                              the closed connection is lost *)
| Fail (e : exn).          (* the pending read raises: the error the
                              connection was lost with, or [CancelledError]
                              thrown into the waiting task *)

(** Coroutines handed to [asyncio.create_task]. *)
Inductive coroutine : Type :=
| co_forward_ws_to_tcp (websocket : WebSocket) (writer : StreamWriter)
| co_forward_tcp_to_ws (websocket : WebSocket) (reader : StreamReader).

(** A task is named by its position in the order of creation. *)
Definition task := nat.

(** One iteration of the event loop, seen from a coroutine suspended in
    [asyncio.wait]: some tasks finish, or the waiter itself is cancelled. *)
Inductive tick : Type :=
| Finishes (ts : list task)
| CancelWaiter.

Inductive return_when : Type :=
| FIRST_COMPLETED
| ALL_COMPLETED.

(** Lines passed to [print]; the f-string arguments are kept as data. *)
Inductive line : Type :=
| ErrorForwardingWsToTcp (e : exn)
| ErrorForwardingTcpToWs (e : exn)
| ClientConnected (port : Z) (subprotocol : option string)
| CouldNotConnect (port : Z) (e : exn)
| ConnectionClosed (port : Z).

(** Every call that leaves the module, with its arguments and result. *)
Inductive event : Type :=
| EvAccept (subprotocol : option string) (r : reply unit)
| EvReceiveBytes (r : reply bytes)
| EvSendBytes (data : bytes) (r : reply unit)
| EvWsClose (code : Z) (r : reply unit)
| EvOpenConnection (host : string) (port : Z) (r : reply unit)
| EvRead (n : nat) (r : reply bytes)
| EvWrite (data : bytes) (r : reply unit)
| EvDrain (r : reply unit)
| EvIsClosing (b : bool)
| EvClose
| EvWaitClosed (r : reply unit)
| EvCreateTask (c : coroutine) (t : task)
| EvWait (fs : list task) (rw : return_when) (done pending : list task)
| EvCancel (t : task)
| EvPrint (l : line).

(** The world of one session.  The [*_replies] and [ws_inbox] fields are
    scripts: each awaited call consumes the head of its script, and a call
    whose script is exhausted never resolves. *)
Record World : Type := mkWorld {
  (* the WebSocket and its client *)
  ws_headers : list (string * string);
  ws_accept_replies : list (reply unit);
  ws_inbox : list (reply bytes);
  ws_send_replies : list (reply unit);
  ws_close_replies : list (reply unit);
  (* the TCP connection and its peer *)
  tcp_connect_replies : list (reply unit);
  tcp_state : transport_state;
  rd_buffer : bytes;
  rd_eof : bool;
  rd_arrivals : list arrival;
  wr_out : bytes;
  wr_drain_replies : list (reply unit);
  wr_wait_closed_replies : list (reply unit);
  (* the event loop *)
  loop_tasks : list coroutine;
  loop_done : list task;
  loop_cancel_requested : list task;
  loop_ticks : list tick;
  (* observation *)
  trace : list event
}.

Definition log (ev : event) (w : World) : World :=
  mkWorld (ws_headers w) (ws_accept_replies w) (ws_inbox w)
    (ws_send_replies w) (ws_close_replies w) (tcp_connect_replies w)
    (tcp_state w) (rd_buffer w) (rd_eof w) (rd_arrivals w) (wr_out w)
    (wr_drain_replies w) (wr_wait_closed_replies w) (loop_tasks w)
    (loop_done w) (loop_cancel_requested w) (loop_ticks w)
    (trace w ++ [ev]).

Definition set_ws_accept_replies (x : list (reply unit)) (w : World) : World :=
  mkWorld (ws_headers w) x (ws_inbox w)
    (ws_send_replies w) (ws_close_replies w) (tcp_connect_replies w)
    (tcp_state w) (rd_buffer w) (rd_eof w) (rd_arrivals w) (wr_out w)
    (wr_drain_replies w) (wr_wait_closed_replies w) (loop_tasks w)
    (loop_done w) (loop_cancel_requested w) (loop_ticks w) (trace w).

Definition set_ws_inbox (x : list (reply bytes)) (w : World) : World :=
  mkWorld (ws_headers w) (ws_accept_replies w) x
    (ws_send_replies w) (ws_close_replies w) (tcp_connect_replies w)
    (tcp_state w) (rd_buffer w) (rd_eof w) (rd_arrivals w) (wr_out w)
    (wr_drain_replies w) (wr_wait_closed_replies w) (loop_tasks w)
    (loop_done w) (loop_cancel_requested w) (loop_ticks w) (trace w).

Definition set_ws_send_replies (x : list (reply unit)) (w : World) : World :=
  mkWorld (ws_headers w) (ws_accept_replies w) (ws_inbox w)
    x (ws_close_replies w) (tcp_connect_replies w)
    (tcp_state w) (rd_buffer w) (rd_eof w) (rd_arrivals w) (wr_out w)
    (wr_drain_replies w) (wr_wait_closed_replies w) (loop_tasks w)
    (loop_done w) (loop_cancel_requested w) (loop_ticks w) (trace w).

Definition set_ws_close_replies (x : list (reply unit)) (w : World) : World :=
  mkWorld (ws_headers w) (ws_accept_replies w) (ws_inbox w)
    (ws_send_replies w) x (tcp_connect_replies w)
    (tcp_state w) (rd_buffer w) (rd_eof w) (rd_arrivals w) (wr_out w)
    (wr_drain_replies w) (wr_wait_closed_replies w) (loop_tasks w)
    (loop_done w) (loop_cancel_requested w) (loop_ticks w) (trace w).

Definition set_tcp_connect_replies (x : list (reply unit)) (w : World) : World :=
  mkWorld (ws_headers w) (ws_accept_replies w) (ws_inbox w)
    (ws_send_replies w) (ws_close_replies w) x
    (tcp_state w) (rd_buffer w) (rd_eof w) (rd_arrivals w) (wr_out w)
    (wr_drain_replies w) (wr_wait_closed_replies w) (loop_tasks w)
    (loop_done w) (loop_cancel_requested w) (loop_ticks w) (trace w).

Definition set_tcp_state (x : transport_state) (w : World) : World :=
  mkWorld (ws_headers w) (ws_accept_replies w) (ws_inbox w)
    (ws_send_replies w) (ws_close_replies w) (tcp_connect_replies w)
    x (rd_buffer w) (rd_eof w) (rd_arrivals w) (wr_out w)
    (wr_drain_replies w) (wr_wait_closed_replies w) (loop_tasks w)
    (loop_done w) (loop_cancel_requested w) (loop_ticks w) (trace w).

(** The reader's three fields change together. *)
Definition set_reader (buf : bytes) (eof : bool) (arr : list arrival)
    (w : World) : World :=
  mkWorld (ws_headers w) (ws_accept_replies w) (ws_inbox w)
    (ws_send_replies w) (ws_close_replies w) (tcp_connect_replies w)
    (tcp_state w) buf eof arr (wr_out w)
    (wr_drain_replies w) (wr_wait_closed_replies w) (loop_tasks w)
    (loop_done w) (loop_cancel_requested w) (loop_ticks w) (trace w).

Definition set_wr_out (x : bytes) (w : World) : World :=
  mkWorld (ws_headers w) (ws_accept_replies w) (ws_inbox w)
    (ws_send_replies w) (ws_close_replies w) (tcp_connect_replies w)
    (tcp_state w) (rd_buffer w) (rd_eof w) (rd_arrivals w) x
    (wr_drain_replies w) (wr_wait_closed_replies w) (loop_tasks w)
    (loop_done w) (loop_cancel_requested w) (loop_ticks w) (trace w).

Definition set_wr_drain_replies (x : list (reply unit)) (w : World) : World :=
  mkWorld (ws_headers w) (ws_accept_replies w) (ws_inbox w)
    (ws_send_replies w) (ws_close_replies w) (tcp_connect_replies w)
    (tcp_state w) (rd_buffer w) (rd_eof w) (rd_arrivals w) (wr_out w)
    x (wr_wait_closed_replies w) (loop_tasks w)
    (loop_done w) (loop_cancel_requested w) (loop_ticks w) (trace w).

Definition set_wr_wait_closed_replies (x : list (reply unit)) (w : World)
    : World :=
  mkWorld (ws_headers w) (ws_accept_replies w) (ws_inbox w)
    (ws_send_replies w) (ws_close_replies w) (tcp_connect_replies w)
    (tcp_state w) (rd_buffer w) (rd_eof w) (rd_arrivals w) (wr_out w)
    (wr_drain_replies w) x (loop_tasks w)
    (loop_done w) (loop_cancel_requested w) (loop_ticks w) (trace w).

(** The event loop's fields. *)
Definition set_loop (tasks : list coroutine) (done cancelled : list task)
    (ticks : list tick) (w : World) : World :=
  mkWorld (ws_headers w) (ws_accept_replies w) (ws_inbox w)
    (ws_send_replies w) (ws_close_replies w) (tcp_connect_replies w)
    (tcp_state w) (rd_buffer w) (rd_eof w) (rd_arrivals w) (wr_out w)
    (wr_drain_replies w) (wr_wait_closed_replies w)
    tasks done cancelled ticks (trace w).

(** ** The coroutine monad *)

(** How a coroutine run ends.  [Pending] is a coroutine suspended at an
    [await] that the environment never resolves; [OutOfFuel] belongs to the
    model only (see [while_true]). *)
Inductive outcome (A : Type) : Type :=
| Returned (a : A)
| Raised (e : exn)
| Pending
| OutOfFuel.
Arguments Raised {A} e.
Arguments Pending {A}.
Arguments OutOfFuel {A}.

Definition M (A : Type) : Type := World -> outcome A * World.

Definition mret {A} (a : A) : M A := fun w => (Returned a, w).

Definition mbind {A B} (m : M A) (k : A -> M B) : M B :=
  fun w =>
    match m w with
    | (Returned a, w') => k a w'
    | (Raised e, w') => (Raised e, w')
    | (Pending, w') => (Pending, w')
    | (OutOfFuel, w') => (OutOfFuel, w')
    end.

#[global] Instance Monad_M : Monad M :=
  {| ret := @mret; bind := @mbind |}.

(** An [except cls as e: handler] clause. *)
Record except_clause (A : Type) : Type := except {
  catches : exn -> bool;
  handler : exn -> M A
}.

(** The first clause that matches handles the exception. *)
Fixpoint dispatch {A} (clauses : list (except_clause A)) (e : exn)
    : option (M A) :=
  match clauses with
  | [] => None
  | c :: rest => if catches c e then Some (handler c e) else dispatch rest e
  end.

(** [try: body / except ...: ...]. *)
Definition try_except {A} (body : M A) (clauses : list (except_clause A))
    : M A :=
  fun w =>
    match body w with
    | (Raised e, w') =>
        match dispatch clauses e with
        | Some h => h w'
        | None => (Raised e, w')
        end
    | r => r
    end.

(** [try: body / finally: cleanup].  The cleanup runs however the body
    ends; an exception leaving the cleanup replaces the body's result. *)
Definition try_finally {A} (body : M A) (cleanup : M unit) : M A :=
  fun w =>
    match body w with
    | (Pending, w') => (Pending, w')
    | (OutOfFuel, w') => (OutOfFuel, w')
    | (o, w') =>
        match cleanup w' with
        | (Returned _, w'') => (o, w'')
        | (Raised e, w'') => (Raised e, w'')
        | (Pending, w'') => (Pending, w'')
        | (OutOfFuel, w'') => (OutOfFuel, w'')
        end
    end.

(** How one iteration of a [while True] body ends. *)
Inductive ctl : Type :=
| Continue
| Break.

(** [while True: body].  [fuel] bounds the number of iterations the model
    unrolls; the pumps are given enough for the world they run in. *)
Fixpoint while_true (fuel : nat) (body : M ctl) : M unit :=
  match fuel with
  | O => fun w => (OutOfFuel, w)
  | S fuel' =>
      c <- body ;;
      match c with
      | Break => ret tt
      | Continue => while_true fuel' body
      end
  end.

(** [for x in xs: body x]. *)
Fixpoint for_each {A} (xs : list A) (body : A -> M unit) : M unit :=
  match xs with
  | [] => ret tt
  | x :: rest => body x ;; for_each rest body
  end.

(** ** The calls the module makes *)

(** An awaited call answered from a script. *)
Definition awaiting {A} (script : World -> list (reply A))
    (consume : list (reply A) -> World -> World)
    (ev : reply A -> event) : M A :=
  fun w =>
    match script w with
    | [] => (Pending, w)
    | r :: rest =>
        let w' := log (ev r) (consume rest w) in
        match r with
        | Ok a => (Returned a, w')
        | Raise e => (Raised e, w')
        end
    end.

Definition print (l : line) : M unit :=
  fun w => (Returned tt, log (EvPrint l) w).

(** *** starlette.websockets.WebSocket *)

(** [websocket.headers.get(key, default)]: the first header named [key]. *)
Fixpoint headers_lookup (hs : list (string * string)) (key default : string)
    : string :=
  match hs with
  | [] => default
  | (k, v) :: rest => if String.eqb k key then v else headers_lookup rest key default
  end.

Definition headers_get (websocket : WebSocket) (key default : string)
    : M string :=
  fun w => (Returned (headers_lookup (ws_headers w) key default), w).

Definition accept (websocket : WebSocket) (subprotocol : option string)
    : M unit :=
  awaiting ws_accept_replies set_ws_accept_replies (EvAccept subprotocol).

Definition receive_bytes (websocket : WebSocket) : M bytes :=
  awaiting ws_inbox set_ws_inbox EvReceiveBytes.

Definition send_bytes (websocket : WebSocket) (data : bytes) : M unit :=
  awaiting ws_send_replies set_ws_send_replies (EvSendBytes data).

(** [websocket.close(code=1000)]. *)
Definition ws_close (websocket : WebSocket) (code : Z) : M unit :=
  awaiting ws_close_replies set_ws_close_replies (EvWsClose code).

(** *** asyncio streams *)

(** [asyncio.open_connection(host, port)]. *)
Definition open_connection (host : string) (port : Z)
    : M (StreamReader * StreamWriter) :=
  awaiting tcp_connect_replies set_tcp_connect_replies
    (EvOpenConnection host port) ;;
  ret (the_reader, the_writer).

(** [writer.write(data)] does not suspend and returns nothing.  After
    [write_eof] it raises [RuntimeError]; [b''] is ignored; a closed
    transport drops the bytes.  Otherwise the transport sends (or queues)
    them, and [wr_out], the bytes the transport has taken, grows; when the
    send fails, the transport drops the bytes and closes itself, and the
    call returns all the same.  Whether the bytes taken reach the peer is
    not for [write] to know. *)
Definition writer_write (writer : StreamWriter) (data : bytes) : M unit :=
  fun w =>
    let returns w' := (Returned tt, log (EvWrite data (Ok tt)) w') in
    match tcp_state w, data with
    | WriteShut, _ =>
        (Raised RuntimeError, log (EvWrite data (Raise RuntimeError)) w)
    | _, [] => returns w
    | Established, _ => returns (set_wr_out (wr_out w ++ data) w)
    | Failing (S n), _ =>
        returns (set_tcp_state (Failing n) (set_wr_out (wr_out w ++ data) w))
    | Failing O, _ => returns (set_tcp_state Closing w)
    | Closing, _ => returns w
    end.

(** [await writer.drain()].  The flush raises an [Exception] only once the
    connection is lost, and a transport that has lost its connection is
    closed; a [CancelledError] thrown into the waiting task says nothing
    about the transport. *)
Definition writer_drain (writer : StreamWriter) : M unit :=
  fun w =>
    match wr_drain_replies w with
    | [] => (Pending, w)
    | r :: rest =>
        let w' := log (EvDrain r) (set_wr_drain_replies rest w) in
        match r with
        | Ok a => (Returned a, w')
        | Raise e =>
            (Raised e,
             if isinstance e Exception then set_tcp_state Closing w' else w')
        end
    end.

Definition transport_is_closing (s : transport_state) : bool :=
  match s with
  | Closing => true
  | _ => false
  end.

Definition writer_is_closing (writer : StreamWriter) : M bool :=
  fun w =>
    let b := transport_is_closing (tcp_state w) in
    (Returned b, log (EvIsClosing b) w).

(** [writer.close()] closes the transport, both directions. *)
Definition writer_close (writer : StreamWriter) : M unit :=
  fun w => (Returned tt, log EvClose (set_tcp_state Closing w)).

Definition writer_wait_closed (writer : StreamWriter) : M unit :=
  awaiting wr_wait_closed_replies set_wr_wait_closed_replies EvWaitClosed.

(** What a reader that waits for data wakes up to.  Empty segments do not
    wake it. *)
Inductive woken : Type :=
| GotData (data : bytes) (rest : list arrival)
| GotEof (rest : list arrival)
| GotException (e : exn) (rest : list arrival)
| Never.

Fixpoint wait_for_data (arrivals : list arrival) : woken :=
  match arrivals with
  | [] => Never
  | Feed [] :: rest => wait_for_data rest
  | Feed data :: rest => GotData data rest
  | FeedEof :: rest => GotEof rest
  | Fail e :: rest => GotException e rest
  end.

(** The same on a closed transport.  It has removed its reader callback,
    so the segments still in flight reach nobody; only the loss of the
    connection still reaches the reader, as the end of the stream or as the
    error the connection was lost with. *)
Fixpoint wait_for_end (arrivals : list arrival) : woken :=
  match arrivals with
  | [] => Never
  | Feed data :: rest =>
      match wait_for_end rest with
      | GotEof rest' => GotEof (Feed data :: rest')
      | GotException e rest' => GotException e (Feed data :: rest')
      | other => other
      end
  | FeedEof :: rest => GotEof rest
  | Fail e :: rest => GotException e rest
  end.

(** What the transport in state [s] wakes a waiting reader with. *)
Definition wait_for_transport (s : transport_state)
    : list arrival -> woken :=
  if transport_is_closing s then wait_for_end else wait_for_data.

(** [reader.read(n)] for [n >= 0]: at most [n] bytes, as soon as any are
    buffered; [b''] at end of stream.  The reader itself never looks at the
    transport: the transport feeds it.  Here the arrivals are delivered on
    demand, so that what the transport feeds is read off its state when the
    reader has to wait.  An [Exception] raised by the read is a fatal error
    of the transport, which has closed itself. *)
Definition reader_read (reader : StreamReader) (n : nat) : M bytes :=
  fun w =>
    let deliver data buf eof arr :=
      (Returned data, log (EvRead n (Ok data)) (set_reader buf eof arr w)) in
    match n with
    | O => deliver [] (rd_buffer w) (rd_eof w) (rd_arrivals w)
    | S _ =>
        match rd_buffer w with
        | _ :: _ =>
            deliver (firstn n (rd_buffer w)) (skipn n (rd_buffer w))
              (rd_eof w) (rd_arrivals w)
        | [] =>
            if rd_eof w then deliver [] [] true (rd_arrivals w)
            else
              match wait_for_transport (tcp_state w) (rd_arrivals w) with
              | GotData data rest =>
                  deliver (firstn n data) (skipn n data) false rest
              | GotEof rest => deliver [] [] true rest
              | GotException e rest =>
                  let w' :=
                    log (EvRead n (Raise e)) (set_reader [] false rest w) in
                  (Raised e,
                   if isinstance e Exception then set_tcp_state Closing w'
                   else w')
              | Never => (Pending, w)
              end
        end
    end.

(** *** asyncio tasks *)

Definition create_task (c : coroutine) : M task :=
  fun w =>
    let t := List.length (loop_tasks w) in
    (Returned t,
     log (EvCreateTask c t)
       (set_loop (loop_tasks w ++ [c]) (loop_done w)
          (loop_cancel_requested w) (loop_ticks w) w)).

Definition is_done (done : list task) (t : task) : bool :=
  existsb (Nat.eqb t) done.

(** [task.cancel()] requests cancellation; a finished task ignores it. *)
Definition task_cancel (t : task) : M unit :=
  fun w =>
    let requested :=
      if is_done (loop_done w) t then loop_cancel_requested w
      else loop_cancel_requested w ++ [t] in
    (Returned tt,
     log (EvCancel t)
       (set_loop (loop_tasks w) (loop_done w) requested (loop_ticks w) w)).

Definition wait_satisfied (rw : return_when) (fs done : list task) : bool :=
  match rw with
  | FIRST_COMPLETED => existsb (is_done done) fs
  | ALL_COMPLETED => forallb (is_done done) fs
  end.

Inductive wakeup : Type :=
| Woken (done : list task) (rest : list tick)
| Interrupted (done : list task) (rest : list tick)
| Asleep (done : list task).

(** The waiter sleeps through the event loop's iterations until the
    condition it waits for holds. *)
Fixpoint sleep_until (rw : return_when) (fs done : list task)
    (ticks : list tick) : wakeup :=
  if wait_satisfied rw fs done then Woken done ticks
  else
    match ticks with
    | [] => Asleep done
    | Finishes ts :: rest => sleep_until rw fs (done ++ ts) rest
    | CancelWaiter :: rest => Interrupted done rest
    end.

(** [asyncio.wait(fs, return_when=rw)]: the pair [(done, pending)]. *)
Definition asyncio_wait (fs : list task) (rw : return_when)
    : M (list task * list task) :=
  fun w =>
    match fs with
    | [] => (Raised ValueError, w)
    | _ :: _ =>
        match sleep_until rw fs (loop_done w) (loop_ticks w) with
        | Woken done rest =>
            let d := filter (is_done done) fs in
            let p := filter (fun t => negb (is_done done t)) fs in
            (Returned (d, p),
             log (EvWait fs rw d p)
               (set_loop (loop_tasks w) done (loop_cancel_requested w) rest w))
        | Interrupted done rest =>
            (Raised CancelledError,
             set_loop (loop_tasks w) done (loop_cancel_requested w) rest w)
        | Asleep done =>
            (Pending,
             set_loop (loop_tasks w) done (loop_cancel_requested w) [] w)
        end
    end.

(** *** str *)

(** [c.isspace()] for a character below U+0100 (header values are decoded
    as latin-1): TAB..CR, FS..US, space, NEL and NBSP. *)
Definition isspace (c : ascii) : bool :=
  let n := nat_of_ascii c in
  (((9 <=? n) && (n <=? 13)) || ((28 <=? n) && (n <=? 32))
   || (n =? 133) || (n =? 160))%nat.

Fixpoint lstrip (s : string) : string :=
  match s with
  | EmptyString => EmptyString
  | String c s' => if isspace c then lstrip s' else s
  end.

Fixpoint rstrip (s : string) : string :=
  match s with
  | EmptyString => EmptyString
  | String c s' =>
      match rstrip s' with
      | EmptyString => if isspace c then EmptyString else String c EmptyString
      | r => String c r
      end
  end.

(** [s.strip()]. *)
Definition strip (s : string) : string := rstrip (lstrip s).

(** [s.split(sep)] for a one-character separator; [''.split(',')] is
    [['']]. *)
Fixpoint split (sep : ascii) (s : string) : list string :=
  match s with
  | EmptyString => [EmptyString]
  | String c s' =>
      if Ascii.eqb c sep then EmptyString :: split sep s'
      else
        match split sep s' with
        | [] => [String c EmptyString]
        | field :: fields => String c field :: fields
        end
  end.

(** ** websockify.py *)

(** One iteration of the loop of [forward_ws_to_tcp] (lines 11-15). *)
Definition ws_to_tcp_iteration (websocket : WebSocket) (writer : StreamWriter)
    : M ctl :=
  data <- receive_bytes websocket ;;
  if py_not data then ret Break
  else
    writer_write writer data ;;
    writer_drain writer ;;
    ret Continue.

(** [forward_ws_to_tcp] (lines 7-24), its loop unrolled at most [fuel]
    times. *)
Definition forward_ws_to_tcp_upto (fuel : nat) (websocket : WebSocket)
    (writer : StreamWriter) : M unit :=
  try_finally
    (try_except
       (while_true fuel (ws_to_tcp_iteration websocket writer))
       [ except
           (fun e => isinstance_any e [WebSocketDisconnect; IncompleteReadError])
           (fun _ => ret tt);
         except
           (fun e => isinstance e Exception)
           (fun e => print (ErrorForwardingWsToTcp e)) ])
    (closing <- writer_is_closing writer ;;
     if negb closing then writer_close writer else ret tt).

(** Every iteration that continues consumes one entry of the inbox. *)
Definition ws_to_tcp_fuel (w : World) : nat := S (List.length (ws_inbox w)).

Definition forward_ws_to_tcp (websocket : WebSocket) (writer : StreamWriter)
    : M unit :=
  fun w => forward_ws_to_tcp_upto (ws_to_tcp_fuel w) websocket writer w.

(** The size of the reads of [forward_tcp_to_ws]. *)
Definition READ_SIZE : nat := 4096.

(** One iteration of the loop of [forward_tcp_to_ws] (lines 31-35). *)
Definition tcp_to_ws_iteration (websocket : WebSocket) (reader : StreamReader)
    : M ctl :=
  data <- reader_read reader READ_SIZE ;;
  if py_not data then ret Break
  else
    send_bytes websocket data ;;
    ret Continue.

(** [forward_tcp_to_ws] (lines 27-44), its loop unrolled at most [fuel]
    times. *)
Definition forward_tcp_to_ws_upto (fuel : nat) (websocket : WebSocket)
    (reader : StreamReader) : M unit :=
  try_finally
    (try_except
       (while_true fuel (tcp_to_ws_iteration websocket reader))
       [ except
           (fun e => isinstance e Exception)
           (fun e => print (ErrorForwardingTcpToWs e)) ])
    (try_except
       (ws_close websocket 1000)
       [ except (fun e => isinstance e Exception) (fun _ => ret tt) ]).

(** Every iteration that continues takes at least one byte out of the
    buffer, or one arrival off the script. *)
Fixpoint arrivals_size (arrivals : list arrival) : nat :=
  match arrivals with
  | [] => 0
  | Feed data :: rest => S (List.length data + arrivals_size rest)
  | _ :: rest => S (arrivals_size rest)
  end.

Definition tcp_to_ws_fuel (w : World) : nat :=
  S (List.length (rd_buffer w) + arrivals_size (rd_arrivals w)).

Definition forward_tcp_to_ws (websocket : WebSocket) (reader : StreamReader)
    : M unit :=
  fun w => forward_tcp_to_ws_upto (tcp_to_ws_fuel w) websocket reader w.

(** The scan of lines 50-55: the first candidate that is [binary] once
    stripped ends the loop. *)
Fixpoint select_subprotocol (client_subprotocols : list string)
    (selected_subprotocol : option string) : option string :=
  match client_subprotocols with
  | [] => selected_subprotocol
  | proto :: rest =>
      let proto := strip proto in
      if String.eqb proto "binary" then Some "binary"
      else select_subprotocol rest selected_subprotocol
  end.

(** Lines 49-55, from the header value to the selection. *)
Definition negotiate (header : string) : option string :=
  select_subprotocol (split "," header) None.

(** Lines 59-90 of [websockify]: what follows the accept.  The [return] of
    line 69 is the [None] that leaves the [try] statement. *)
Definition websockify_accepted (websocket : WebSocket) (port : Z)
    (selected_subprotocol : option string) : M unit :=
  print (ClientConnected port selected_subprotocol) ;;
  connection <-
    try_except
      (streams <- open_connection "localhost" port ;; ret (Some streams))
      [ except
          (fun e => isinstance e OSError)
          (fun e =>
             print (CouldNotConnect port e) ;;
             ws_close websocket 1011 ;;
             ret None) ] ;;
  match connection with
  | None => ret tt
  | Some (reader, writer) =>
      task_ws_to_tcp <- create_task (co_forward_ws_to_tcp websocket writer) ;;
      task_tcp_to_ws <- create_task (co_forward_tcp_to_ws websocket reader) ;;
      waited <- asyncio_wait [task_ws_to_tcp; task_tcp_to_ws] FIRST_COMPLETED ;;
      let '(done, pending) := waited in
      for_each pending task_cancel ;;
      try_except
        (writer_wait_closed writer)
        [ except (fun e => isinstance e Exception) (fun _ => ret tt) ] ;;
      print (ConnectionClosed port)
  end.

(** [websockify] (lines 47-90). *)
Definition websockify (websocket : WebSocket) (port : Z) : M unit :=
  header <- headers_get websocket "sec-websocket-protocol" "" ;;
  let selected_subprotocol := negotiate header in
  accept websocket selected_subprotocol ;;
  websockify_accepted websocket port selected_subprotocol.

(** ** Vocabulary of the specification *)

(** *** Traces *)

(** [w'] is [w] after more calls, all of them satisfying [P]. *)
Definition extends_by (P : event -> Prop) (w w' : World) : Prop :=
  exists tr : list event, trace w' = trace w ++ tr /\ Forall P tr.

(** A computation under which the trace only grows. *)
Definition grows {A : Type} (m : M A) : Prop :=
  forall w : World, extends_by (fun _ => True) w (snd (m w)).

(** *** The pump from the WebSocket to TCP *)

(** The world a run of [forward_ws_to_tcp] leaves behind: only the inbox,
    the writer and the trace change. *)
Definition ws_to_tcp_world (w : World) (inbox : list (reply bytes))
    (out : bytes) (drains : list (reply unit)) (state : transport_state)
    (tr : list event) : World :=
  mkWorld (ws_headers w) (ws_accept_replies w) inbox
    (ws_send_replies w) (ws_close_replies w) (tcp_connect_replies w)
    state (rd_buffer w) (rd_eof w) (rd_arrivals w) out
    drains (wr_wait_closed_replies w) (loop_tasks w)
    (loop_done w) (loop_cancel_requested w) (loop_ticks w) tr.

(** Whether the socket of a transport in state [s] takes the next
    non-empty write, and the state of the transport after that write. *)
Definition takes (s : transport_state) : bool :=
  match s with
  | Established | Failing (S _) => true
  | _ => false
  end.

Definition after_send (s : transport_state) : transport_state :=
  match s with
  | Failing (S n) => Failing n
  | Failing O => Closing
  | _ => s
  end.

(** Of the non-empty messages [msgs] written in turn to a transport in
    state [s], those its socket takes; and the state of the transport
    after them. *)
Fixpoint taken (s : transport_state) (msgs : list bytes) : list bytes :=
  match msgs with
  | [] => []
  | m :: rest =>
      if takes s then m :: taken (after_send s) rest
      else taken (after_send s) rest
  end.

Fixpoint after_sends (s : transport_state) (msgs : list bytes)
    : transport_state :=
  match msgs with
  | [] => s
  | _ :: rest => after_sends (after_send s) rest
  end.

(** The calls made to relay the messages [msgs], in order. *)
Definition relayed_to_tcp (msgs : list bytes) : list event :=
  flat_map
    (fun m => [EvReceiveBytes (Ok m); EvWrite m (Ok tt); EvDrain (Ok tt)])
    msgs.

(** The calls made inside the [try] of [forward_ws_to_tcp], and by its
    [except] clauses. *)
Definition ws_to_tcp_try_event (ev : event) : Prop :=
  match ev with
  | EvReceiveBytes _ | EvWrite _ _ | EvDrain _ => True
  | EvPrint (ErrorForwardingWsToTcp _) => True
  | _ => False
  end.

(** The effect of the [finally] block of lines 21-24. *)
Definition closed_by_pump (w : World) : World :=
  if transport_is_closing (tcp_state w)
  then log (EvIsClosing true) w
  else log EvClose (set_tcp_state Closing (log (EvIsClosing false) w)).

(** The calls of that [finally] block, for a transport in state [s]. *)
Definition cleanup_events (s : transport_state) : list event :=
  if transport_is_closing s then [EvIsClosing true]
  else [EvIsClosing false; EvClose].

(** A half-closed transport: the write direction is shut, the read
    direction still delivers what the peer sends. *)
Definition half_closed (w : World) : Prop := tcp_state w = WriteShut.

(** *** The pump from TCP to the WebSocket *)

(** The bytes the TCP peer has sent and the pump has not read yet: those
    buffered, then those still to arrive. *)
Fixpoint fed (arrivals : list arrival) : bytes :=
  match arrivals with
  | [] => []
  | Feed data :: rest => data ++ fed rest
  | _ :: rest => fed rest
  end.

Definition pending_bytes (w : World) : bytes :=
  rd_buffer w ++ fed (rd_arrivals w).

(** A reader with nothing buffered that its transport will never wake: a
    read stays pending. *)
Definition starved (w : World) : Prop :=
  rd_buffer w = [] /\ rd_eof w = false
  /\ wait_for_transport (tcp_state w) (rd_arrivals w) = Never.

(** The runs of the loop of [forward_tcp_to_ws] (lines 30-35), as the
    specification describes them: [tcp_to_ws_run consumed sent o tr] is a
    run that took the bytes [consumed] off the TCP stream, had the messages
    [sent] accepted by the WebSocket, ended as [o] and made the calls
    [tr].  A read returns at most [READ_SIZE] bytes; an empty read ends the
    run normally; a non-empty chunk is sent at once, as one message. *)
Inductive tcp_to_ws_run
    : bytes -> list bytes -> outcome unit -> list event -> Prop :=
| run_eof :
    tcp_to_ws_run [] [] (Returned tt) [EvRead READ_SIZE (Ok [])]
| run_read_raises (e : exn) :
    tcp_to_ws_run [] [] (Raised e) [EvRead READ_SIZE (Raise e)]
| run_read_pending :
    tcp_to_ws_run [] [] Pending []
| run_send_raises (data : bytes) (e : exn) :
    data <> [] -> List.length data <= READ_SIZE ->
    tcp_to_ws_run data [] (Raised e)
      [EvRead READ_SIZE (Ok data); EvSendBytes data (Raise e)]
| run_send_pending (data : bytes) :
    data <> [] -> List.length data <= READ_SIZE ->
    tcp_to_ws_run data [] Pending [EvRead READ_SIZE (Ok data)]
| run_relay (data consumed : bytes) (sent : list bytes) (o : outcome unit)
    (tr : list event) :
    data <> [] -> List.length data <= READ_SIZE ->
    tcp_to_ws_run consumed sent o tr ->
    tcp_to_ws_run (data ++ consumed) (data :: sent) o
      (EvRead READ_SIZE (Ok data) :: EvSendBytes data (Ok tt) :: tr).

(** The messages the WebSocket accepted, in order. *)
Fixpoint accepted (tr : list event) : list bytes :=
  match tr with
  | [] => []
  | EvSendBytes data (Ok _) :: rest => data :: accepted rest
  | _ :: rest => accepted rest
  end.

(** A [send_bytes] call carries at least one byte. *)
Definition sends_no_empty_message (ev : event) : Prop :=
  match ev with
  | EvSendBytes data _ => data <> []
  | _ => True
  end.

(** What becomes of a pump about to end as [o] when the reply to its
    [websocket.close()] is [r] (lines 41-44). *)
Definition swallow (o : outcome unit) (r : reply unit) : outcome unit :=
  match r with
  | Ok _ => o
  | Raise e => if isinstance e Exception then o else Raised e
  end.

(** The [finally] block of lines 39-44, for a pump about to end as [o]. *)
Definition close_quietly (o : outcome unit) (w : World)
    : outcome unit * World :=
  match ws_close_replies w with
  | [] => (Pending, w)
  | r :: rest =>
      (swallow o r, log (EvWsClose 1000 r) (set_ws_close_replies rest w))
  end.

(** The way [forward_tcp_to_ws] ends once its loop has ended as [o1] in
    the world [w1]: the [except] clause of lines 36-38, then the [finally]
    block. *)
Definition tcp_to_ws_ending (o1 : outcome unit) (w1 : World)
    : outcome unit * World :=
  match o1 with
  | Returned _ => close_quietly (Returned tt) w1
  | Raised e =>
      if isinstance e Exception
      then close_quietly (Returned tt)
             (log (EvPrint (ErrorForwardingTcpToWs e)) w1)
      else close_quietly (Raised e) w1
  | Pending => (Pending, w1)
  | OutOfFuel => (OutOfFuel, w1)
  end.

(** How the [try] statement of [forward_tcp_to_ws] ends when its loop
    ends as [o1]: the [except] clause (lines 36-38) catches [Exception]s
    only. *)
Definition tcp_to_ws_result (o1 : outcome unit) : outcome unit :=
  match o1 with
  | Returned _ => Returned tt
  | Raised e => if isinstance e Exception then Returned tt else Raised e
  | Pending => Pending
  | OutOfFuel => OutOfFuel
  end.

(** What [forward_tcp_to_ws] prints when its loop ends as [o1]
    (lines 36-38). *)
Definition tcp_to_ws_report (o1 : outcome unit) : list line :=
  match o1 with
  | Raised e =>
      if isinstance e Exception then [ErrorForwardingTcpToWs e] else []
  | _ => []
  end.

(** The calls made once the loop of [forward_tcp_to_ws] has ended. *)
Definition tcp_to_ws_ending_event (ev : event) : Prop :=
  match ev with
  | EvPrint (ErrorForwardingTcpToWs _) => True
  | EvWsClose code _ => code = 1000%Z
  | _ => False
  end.

Definition is_ws_close (ev : event) : Prop :=
  match ev with
  | EvWsClose _ _ => True
  | _ => False
  end.

(** *** The coordinator *)

(** Neither [t0] nor [t1] finishes during the iterations [quiet] of the
    event loop. *)
Definition both_running (t0 t1 : task) (quiet : list (list task)) : bool :=
  forallb (fun ts => negb (is_done ts t0) && negb (is_done ts t1)) quiet.

(** *** Sample worlds *)

(** Python [bytes] literals. *)
Definition b (s : string) : bytes := list_byte_of_string s.

(** A world in which nothing has happened yet and nothing will: an
    established connection, and no reply to any call. *)
Definition quiet : World :=
  mkWorld [] [] [] [] [] [] Established [] false [] [] [] [] [] [] [] [] [].

(** A client that sends two messages and closes; every flush succeeds. *)
Definition world_clean_session : World :=
  set_wr_drain_replies [Ok tt; Ok tt]
    (set_ws_inbox [Ok (b "ab"); Ok (b "c"); Raise WebSocketDisconnect] quiet).

(** A client whose second message is empty. *)
Definition world_empty_message : World :=
  set_wr_drain_replies [Ok tt]
    (set_ws_inbox [Ok (b "ab"); Ok []; Ok (b "x")] quiet).

(** A client that disconnects at once while the TCP peer still has data in
    flight; the stream ends after it. *)
Definition world_with_data_in_flight : World :=
  set_reader [] false [Feed (b "late"); FeedEof]
    (set_ws_inbox [Raise WebSocketDisconnect] quiet).

(** The TCP peer has gone: the send of the client's message fails, and so
    does the flush. *)
Definition world_peer_gone : World :=
  set_tcp_state (Failing 0)
    (set_wr_drain_replies [Raise ConnectionResetError]
       (set_ws_inbox [Ok (b "x"); Ok (b "y")] quiet)).

(** Every call fails with a [RuntimeError]. *)
Definition world_failing : World :=
  set_ws_close_replies [Raise RuntimeError]
    (set_reader [] false [Fail RuntimeError]
       (set_ws_inbox [Raise RuntimeError] quiet)).

(** Nothing listens on the port. *)
Definition world_refused : World :=
  set_ws_close_replies [Ok tt]
    (set_tcp_connect_replies [Raise ConnectionRefusedError]
       (set_ws_accept_replies [Ok tt] quiet)).

(** The TCP service ends the session: the second pump finishes in the
    second iteration of the event loop; the connection was reset. *)
Definition world_server_closes : World :=
  set_loop [] [] [] [Finishes []; Finishes [1]; Finishes [0]]
    (set_wr_wait_closed_replies [Raise ConnectionResetError]
       (set_tcp_connect_replies [Ok tt]
          (set_ws_accept_replies [Ok tt] quiet))).

(** A client that offers the subprotocols [json] and [binary]. *)
Definition world_offers_binary : World :=
  mkWorld [("sec-websocket-protocol", "json, binary")] [Ok tt]
    [] [] [] [] Established [] false [] [] [] [] [] [] [] [] [].

(** The TCP service sends five bytes in two segments and closes; the close
    of the WebSocket fails. *)
Definition world_stream : World :=
  set_ws_close_replies [Raise RuntimeError]
    (set_ws_send_replies [Ok tt; Ok tt]
       (set_reader [] false [Feed (b "abc"); Feed []; Feed (b "de"); FeedEof]
          quiet)).


(** ** Vocabulary of the further properties *)

(** *** Every run of the pump from the WebSocket to TCP *)

(** The runs of the loop of [forward_ws_to_tcp] (lines 10-15):
    [ws_to_tcp_run written o tr] is a run that passed the messages
    [written] to [writer.write], ended as [o] and made the calls [tr]. *)
Inductive ws_to_tcp_run : list bytes -> outcome unit -> list event -> Prop :=
| ws_run_receive_pending :
    ws_to_tcp_run [] Pending []
| ws_run_empty_message :
    ws_to_tcp_run [] (Returned tt) [EvReceiveBytes (Ok [])]
| ws_run_receive_raises (e : exn) :
    ws_to_tcp_run [] (Raised e) [EvReceiveBytes (Raise e)]
| ws_run_write_raises (m : bytes) (e : exn) :
    m <> [] ->
    ws_to_tcp_run [] (Raised e) [EvReceiveBytes (Ok m); EvWrite m (Raise e)]
| ws_run_drain_raises (m : bytes) (e : exn) :
    m <> [] ->
    ws_to_tcp_run [m] (Raised e)
      [EvReceiveBytes (Ok m); EvWrite m (Ok tt); EvDrain (Raise e)]
| ws_run_drain_pending (m : bytes) :
    m <> [] ->
    ws_to_tcp_run [m] Pending [EvReceiveBytes (Ok m); EvWrite m (Ok tt)]
| ws_run_relay (m : bytes) (written : list bytes) (o : outcome unit)
    (tr : list event) :
    m <> [] ->
    ws_to_tcp_run written o tr ->
    ws_to_tcp_run (m :: written) o
      (EvReceiveBytes (Ok m) :: EvWrite m (Ok tt) :: EvDrain (Ok tt) :: tr).

(** The replies the pump took off the inbox, in order. *)
Fixpoint received (tr : list event) : list (reply bytes) :=
  match tr with
  | [] => []
  | EvReceiveBytes r :: rest => r :: received rest
  | _ :: rest => received rest
  end.

(** The replies the pump got to its flushes, in order. *)
Fixpoint drained (tr : list event) : list (reply unit) :=
  match tr with
  | [] => []
  | EvDrain r :: rest => r :: drained rest
  | _ :: rest => drained rest
  end.

(** The lines printed, in order. *)
Fixpoint printed (tr : list event) : list line :=
  match tr with
  | [] => []
  | EvPrint l :: rest => l :: printed rest
  | _ :: rest => printed rest
  end.

(** What [forward_ws_to_tcp] prints when its loop ends as [o1]
    (lines 16-20). *)
Definition ws_to_tcp_report (o1 : outcome unit) : list line :=
  match o1 with
  | Raised e =>
      if isinstance_any e [WebSocketDisconnect; IncompleteReadError] then []
      else if isinstance e Exception then [ErrorForwardingWsToTcp e]
      else []
  | _ => []
  end.


(** How [forward_ws_to_tcp] ends when its loop ends as [o1]: both
    [except] clauses (lines 16-20) catch [Exception]s only. *)
Definition ws_to_tcp_result (o1 : outcome unit) : outcome unit :=
  match o1 with
  | Returned _ => Returned tt
  | Raised e => if isinstance e Exception then Returned tt else Raised e
  | Pending => Pending
  | OutOfFuel => OutOfFuel
  end.

(** The calls [forward_ws_to_tcp] makes once its loop has ended. *)
Definition ws_to_tcp_ending_event (ev : event) : Prop :=
  match ev with
  | EvPrint (ErrorForwardingWsToTcp _) | EvIsClosing _ | EvClose => True
  | _ => False
  end.


(** [w'] differs from [w] at most in what [forward_ws_to_tcp] works on:
    the inbox of the WebSocket, the writer's side of the transport and the
    trace. *)
Definition ws_to_tcp_frame (w w' : World) : Prop :=
  exists (inbox : list (reply bytes)) (out : bytes)
         (drains : list (reply unit)) (state : transport_state)
         (tr : list event),
    w' = ws_to_tcp_world w inbox out drains state tr.

(** The world a run of [forward_tcp_to_ws] leaves behind: only the replies
    to sends and closes of the WebSocket, the reader, the state of the
    transport and the trace change. *)
Definition tcp_to_ws_world (w : World) (sends closes : list (reply unit))
    (state : transport_state) (buf : bytes) (eof : bool)
    (arr : list arrival) (tr : list event) : World :=
  mkWorld (ws_headers w) (ws_accept_replies w) (ws_inbox w)
    sends closes (tcp_connect_replies w)
    state buf eof arr (wr_out w)
    (wr_drain_replies w) (wr_wait_closed_replies w) (loop_tasks w)
    (loop_done w) (loop_cancel_requested w) (loop_ticks w) tr.

Definition tcp_to_ws_frame (w w' : World) : Prop :=
  exists (sends closes : list (reply unit)) (state : transport_state)
         (buf : bytes) (eof : bool) (arr : list arrival) (tr : list event),
    w' = tcp_to_ws_world w sends closes state buf eof arr tr.

(** The calls [forward_tcp_to_ws] makes. *)
Definition tcp_to_ws_event (ev : event) : Prop :=
  match ev with
  | EvRead _ _ | EvSendBytes _ _ | EvWsClose _ _ => True
  | EvPrint (ErrorForwardingTcpToWs _) => True
  | _ => False
  end.



(** *** Sample worlds of the further properties *)

(** The session is cancelled while both pumps wait: the receive and the
    read end with [CancelledError]. *)
Definition world_cancelled : World :=
  set_ws_close_replies [Ok tt]
    (set_reader [] false [Fail CancelledError]
       (set_ws_inbox [Raise CancelledError] quiet)).

(** The TCP service resets the connection: the read fails. *)
Definition world_connection_reset : World :=
  set_ws_close_replies [Ok tt]
    (set_reader [] false [Fail ConnectionResetError] quiet).

(** The client disconnects while four bytes of the TCP service wait in the
    reader's buffer and more are in flight; the closed connection ends.  *)
Definition world_client_leaves : World :=
  set_ws_close_replies [Ok tt]
    (set_ws_send_replies [Ok tt]
       (set_reader (b "tail") false [Feed (b "late"); FeedEof]
          (set_ws_inbox [Raise WebSocketDisconnect] quiet))).


(** *** The life of a session *)

(** Where the coordinator stands between two of its calls. *)
Inductive phase : Type :=
| Negotiating
| Greeting (selected_subprotocol : option string)
| Connecting
| Reporting (e : exn)
| Rejecting
| Spawning
| SpawningSecond (task_ws_to_tcp : task)
| Forwarding (task_ws_to_tcp task_tcp_to_ws : task)
| Cancelling (pending : list task)
| Farewell
| Closed
| Failed (e : exn).

(** The calls of [websockify] (lines 49-90), each with the phase it is made
    in and the phase it leads to. *)
Inductive lifecycle_step (port : Z) : phase -> event -> phase -> Prop :=
| step_accept sel :
    lifecycle_step port Negotiating (EvAccept sel (Ok tt)) (Greeting sel)
| step_accept_fails sel e :
    lifecycle_step port Negotiating (EvAccept sel (Raise e)) (Failed e)
| step_greet sel :
    lifecycle_step port (Greeting sel)
      (EvPrint (ClientConnected port sel)) Connecting
| step_connect :
    lifecycle_step port Connecting
      (EvOpenConnection "localhost" port (Ok tt)) Spawning
| step_connect_refused e :
    isinstance e OSError = true ->
    lifecycle_step port Connecting
      (EvOpenConnection "localhost" port (Raise e)) (Reporting e)
| step_connect_fails e :
    isinstance e OSError = false ->
    lifecycle_step port Connecting
      (EvOpenConnection "localhost" port (Raise e)) (Failed e)
| step_report e :
    lifecycle_step port (Reporting e)
      (EvPrint (CouldNotConnect port e)) Rejecting
| step_reject :
    lifecycle_step port Rejecting (EvWsClose 1011 (Ok tt)) Closed
| step_reject_fails e :
    lifecycle_step port Rejecting (EvWsClose 1011 (Raise e)) (Failed e)
| step_spawn t0 :
    lifecycle_step port Spawning
      (EvCreateTask (co_forward_ws_to_tcp the_websocket the_writer) t0)
      (SpawningSecond t0)
| step_spawn_second t0 t1 :
    lifecycle_step port (SpawningSecond t0)
      (EvCreateTask (co_forward_tcp_to_ws the_websocket the_reader) t1)
      (Forwarding t0 t1)
| step_wait t0 t1 done pending :
    done <> [] ->
    incl pending [t0; t1] ->
    lifecycle_step port (Forwarding t0 t1)
      (EvWait [t0; t1] FIRST_COMPLETED done pending) (Cancelling pending)
| step_cancel t pending :
    lifecycle_step port (Cancelling (t :: pending)) (EvCancel t)
      (Cancelling pending)
| step_wait_closed :
    lifecycle_step port (Cancelling []) (EvWaitClosed (Ok tt)) Farewell
| step_wait_closed_error e :
    isinstance e Exception = true ->
    lifecycle_step port (Cancelling []) (EvWaitClosed (Raise e)) Farewell
| step_wait_closed_fails e :
    isinstance e Exception = false ->
    lifecycle_step port (Cancelling []) (EvWaitClosed (Raise e)) (Failed e)
| step_farewell :
    lifecycle_step port Farewell (EvPrint (ConnectionClosed port)) Closed.

Inductive lifecycle (port : Z) : phase -> list event -> phase -> Prop :=
| lifecycle_nil ph : lifecycle port ph [] ph
| lifecycle_cons ph ev ph' tr ph'' :
    lifecycle_step port ph ev ph' ->
    lifecycle port ph' tr ph'' ->
    lifecycle port ph (ev :: tr) ph''.

(** The phases in which the coordinator awaits something: the accept, the
    connect, the close after a refused connect, the first pump to finish
    and the close of the connection. *)
Definition awaits (ph : phase) : Prop :=
  match ph with
  | Negotiating | Connecting | Rejecting | Forwarding _ _ | Cancelling [] =>
      True
  | _ => False
  end.

(** The phase a session that ended as [o] is left in. *)
Definition ends_in (o : outcome unit) (ph : phase) : Prop :=
  match o with
  | Returned _ => ph = Closed
  | Raised e =>
      ph = Failed e
      \/ (e = CancelledError /\ exists t0 t1 : task, ph = Forwarding t0 t1)
  | Pending => awaits ph
  | OutOfFuel => False
  end.


(** The client is served, and the request handler is cancelled in the
    second iteration of the event loop, before a pump has finished. *)
Definition world_handler_cancelled : World :=
  set_loop [] [] [] [Finishes []; CancelWaiter; Finishes [0]]
    (set_wr_wait_closed_replies [Ok tt]
       (set_tcp_connect_replies [Ok tt]
          (set_ws_accept_replies [Ok tt] quiet))).

(** ** Reasoning about computations *)

Lemma bind_unfold {A B} (m : M A) (k : A -> M B) (w : World) :
  bind m k w =
  match m w with
  | (Returned a, w') => k a w'
  | (Raised e, w') => (Raised e, w')
  | (Pending, w') => (Pending, w')
  | (OutOfFuel, w') => (OutOfFuel, w')
  end.
Proof. reflexivity. Qed.

(** Expose the binds of a computation applied to a world. *)
Ltac run_bind := cbn [bind ret Monad_M]; unfold mbind, mret.

(** Read the fields of a world built by the setters. *)
Ltac world_cbn :=
  cbn [ws_headers ws_accept_replies ws_inbox ws_send_replies ws_close_replies
       tcp_connect_replies tcp_state rd_buffer rd_eof rd_arrivals wr_out
       wr_drain_replies wr_wait_closed_replies loop_tasks loop_done
       loop_cancel_requested loop_ticks trace log set_ws_accept_replies
       set_ws_inbox set_ws_send_replies set_ws_close_replies
       set_tcp_connect_replies set_tcp_state set_reader set_wr_out
       set_wr_drain_replies set_wr_wait_closed_replies set_loop].

Lemma while_true_unfold (fuel : nat) (body : M ctl) (w : World) :
  while_true (S fuel) body w =
  match body w with
  | (Returned Continue, w') => while_true fuel body w'
  | (Returned Break, w') => (Returned tt, w')
  | (Raised e, w') => (Raised e, w')
  | (Pending, w') => (Pending, w')
  | (OutOfFuel, w') => (OutOfFuel, w')
  end.
Proof.
  cbn [while_true]. rewrite bind_unfold.
  destruct (body w) as [[[]| | |] w']; reflexivity.
Qed.

(** *** Invariants of loops *)

Lemma extends_by_refl (P : event -> Prop) (w : World) : extends_by P w w.
Proof. exists []. split; [now rewrite app_nil_r | constructor]. Qed.

Lemma extends_by_trans (P : event -> Prop) (w1 w2 w3 : World) :
  extends_by P w1 w2 -> extends_by P w2 w3 -> extends_by P w1 w3.
Proof.
  intros [tr1 [E1 F1]] [tr2 [E2 F2]]. exists (tr1 ++ tr2). split.
  - now rewrite E2, E1, app_assoc.
  - now apply Forall_app.
Qed.

Lemma extends_by_log (P : event -> Prop) (ev : event) (w w' : World) :
  P ev -> trace w' = trace w -> extends_by P w (log ev w').
Proof.
  intros HP E. exists [ev]. split; [cbn; now rewrite E | now constructor].
Qed.

(** A loop keeps what each iteration keeps, and does not run out of fuel
    when every continuing iteration lowers a measure that the fuel
    exceeds. *)
Lemma while_true_invariant (I : World -> Prop) (measure : World -> nat)
    (body : M ctl) :
  (forall w, I w ->
     I (snd (body w))
     /\ fst (body w) <> OutOfFuel
     /\ (fst (body w) = Returned Continue -> measure (snd (body w)) < measure w)) ->
  forall (fuel : nat) (w : World),
    I w -> measure w < fuel ->
    I (snd (while_true fuel body w))
    /\ fst (while_true fuel body w) <> OutOfFuel.
Proof.
  intros Hbody. induction fuel as [|fuel IH]; intros w HI Hlt; [lia|].
  rewrite while_true_unfold.
  destruct (Hbody w HI) as [HI' [Hfuel Hdec]].
  destruct (body w) as [[[]| | |] w']; cbn [fst snd] in *;
    try (split; [assumption | discriminate]).
  - apply IH; [assumption|]. specialize (Hdec eq_refl). lia.
  - congruence.
Qed.

(** More fuel than a loop needs changes nothing. *)
Lemma while_true_more_fuel (body : M ctl) (extra : nat) :
  forall (fuel : nat) (w : World),
    fst (while_true fuel body w) <> OutOfFuel ->
    while_true (fuel + extra) body w = while_true fuel body w.
Proof.
  induction fuel as [|fuel IH]; intros w Hfuel.
  - now destruct Hfuel.
  - cbn [Nat.add]. rewrite !while_true_unfold in *.
    destruct (body w) as [[[]| | |] w1]; auto.
Qed.

(** *** Computations only add to the trace *)

Lemma grows_intro {A : Type} (m : M A) :
  (forall w, exists tr, trace (snd (m w)) = trace w ++ tr) -> grows m.
Proof.
  intros H w. destruct (H w) as [tr Htr]. exists tr. split; [assumption|].
  apply Forall_forall. auto.
Qed.

Lemma grows_ret {A : Type} (a : A) : grows (ret a).
Proof. intros w. apply extends_by_refl. Qed.

Lemma grows_bind {A B : Type} (m : M A) (k : A -> M B) :
  grows m -> (forall a, grows (k a)) -> grows (bind m k).
Proof.
  intros Hm Hk w. run_bind. specialize (Hm w).
  destruct (m w) as [[a|e| |] w1]; cbn [fst snd] in *; auto.
  eapply extends_by_trans; [eassumption|]. apply Hk.
Qed.

Lemma grows_try_except {A : Type} (body : M A)
    (clauses : list (except_clause A)) :
  grows body ->
  Forall (fun c => forall e, grows (handler c e)) clauses ->
  grows (try_except body clauses).
Proof.
  intros Hb Hc w. unfold try_except. specialize (Hb w).
  destruct (body w) as [[a|e| |] w1]; cbn [fst snd] in *; auto.
  assert (Hd : forall h, dispatch clauses e = Some h -> grows h).
  { clear Hb. induction Hc as [|c cs Hh Hcs IH]; cbn [dispatch]; intros h.
    - discriminate.
    - destruct (catches c e); [|now apply IH].
      intros Heq. injection Heq as <-. apply Hh. }
  destruct (dispatch clauses e) as [h|]; [|assumption].
  eapply extends_by_trans; [eassumption|]. now apply Hd.
Qed.

Lemma grows_for_each {A : Type} (xs : list A) (body : A -> M unit) :
  (forall x, grows (body x)) -> grows (for_each xs body).
Proof.
  intros Hb. induction xs as [|x xs IH]; cbn [for_each].
  - apply grows_ret.
  - apply grows_bind; auto.
Qed.

Lemma grows_awaiting {A : Type} (script : World -> list (reply A))
    (consume : list (reply A) -> World -> World) (ev : reply A -> event) :
  (forall x w, trace (consume x w) = trace w) ->
  grows (awaiting script consume ev).
Proof.
  intros Hc. apply grows_intro. intros w. unfold awaiting.
  destruct (script w) as [|[a|e] rest]; cbn [snd log trace].
  - exists []. now rewrite app_nil_r.
  - exists [ev (Ok a)]. now rewrite Hc.
  - exists [ev (Raise e)]. now rewrite Hc.
Qed.

Lemma grows_print (l : line) : grows (print l).
Proof. apply grows_intro. intros w. now exists [EvPrint l]. Qed.

Lemma grows_create_task (c : coroutine) : grows (create_task c).
Proof. apply grows_intro. intros w. eexists. reflexivity. Qed.

Lemma grows_task_cancel (t : task) : grows (task_cancel t).
Proof. apply grows_intro. intros w. eexists. reflexivity. Qed.

Lemma grows_asyncio_wait (fs : list task) (rw : return_when) :
  grows (asyncio_wait fs rw).
Proof.
  apply grows_intro. intros w. unfold asyncio_wait.
  destruct fs as [|t fs]; [exists []; now rewrite app_nil_r|].
  destruct (sleep_until _ _ _ _); cbn [snd trace log set_loop].
  - eexists. reflexivity.
  - exists []. now rewrite app_nil_r.
  - exists []. now rewrite app_nil_r.
Qed.

Lemma grows_writer_wait_closed (writer : StreamWriter) :
  grows (writer_wait_closed writer).
Proof. now apply grows_awaiting. Qed.

Lemma grows_ws_close (websocket : WebSocket) (code : Z) :
  grows (ws_close websocket code).
Proof. now apply grows_awaiting. Qed.

Lemma grows_open_connection (host : string) (port : Z) :
  grows (open_connection host port).
Proof.
  apply grows_bind; [now apply grows_awaiting | intros; apply grows_ret].
Qed.

Create HintDb grows.
#[local] Hint Resolve grows_ret grows_print grows_create_task
  grows_task_cancel grows_asyncio_wait grows_for_each grows_ws_close
  grows_writer_wait_closed grows_open_connection : grows.

(** One step of a sequence: the first computation, then the rest. *)
Ltac grows_step :=
  apply grows_bind; [auto with grows | intros].

(** A [try] statement with a single [except] clause. *)
Ltac grows_try :=
  apply grows_try_except;
  [ | repeat constructor; intros; cbn [handler] ].

Lemma grows_websockify_accepted (websocket : WebSocket) (port : Z)
    (selected_subprotocol : option string) :
  grows (websockify_accepted websocket port selected_subprotocol).
Proof.
  unfold websockify_accepted.
  grows_step.
  apply grows_bind.
  - grows_try; repeat grows_step; auto with grows.
  - intros [[reader writer]|]; [|auto with grows].
    do 2 grows_step.
    apply grows_bind; [auto with grows|]. intros [done pending].
    grows_step.
    apply grows_bind; [|auto with grows].
    grows_try; auto with grows.
Qed.

(** ** The pump from the WebSocket to TCP *)

(** *** The loop of [forward_ws_to_tcp] *)

(** A non-empty message on an established connection whose flush
    succeeds: the iteration relays it and continues. *)
Lemma ws_to_tcp_iteration_relays (w : World) (m : bytes)
    (inbox : list (reply bytes)) (drains : list (reply unit)) :
  m <> [] ->
  ws_inbox w = Ok m :: inbox ->
  wr_drain_replies w = Ok tt :: drains ->
  tcp_state w = Established ->
  ws_to_tcp_iteration the_websocket the_writer w =
  (Returned Continue,
   ws_to_tcp_world w inbox (wr_out w ++ m) drains Established
     (trace w ++ relayed_to_tcp [m])).
Proof.
  intros Hm Hin Hdr Hst. destruct w; cbn in Hin, Hdr, Hst; subst.
  destruct m as [|x m]; [congruence|].
  cbv -[app]. repeat rewrite <- app_assoc. reflexivity.
Qed.

(** Relaying [msgs] takes one iteration per message. *)
Lemma ws_to_tcp_loop_relays (msgs : list bytes) :
  forall (w : World) (fuel : nat) (inbox : list (reply bytes))
         (drains : list (reply unit)),
    Forall (fun m => m <> []) msgs ->
    ws_inbox w = map (@Ok bytes) msgs ++ inbox ->
    wr_drain_replies w = repeat (Ok tt) (List.length msgs) ++ drains ->
    tcp_state w = Established ->
    while_true (List.length msgs + fuel)
      (ws_to_tcp_iteration the_websocket the_writer) w =
    while_true fuel (ws_to_tcp_iteration the_websocket the_writer)
      (ws_to_tcp_world w inbox (wr_out w ++ List.concat msgs) drains Established
         (trace w ++ relayed_to_tcp msgs)).
Proof.
  induction msgs as [|m msgs IH]; intros w fuel inbox drains Hne Hin Hdr Hst.
  - destruct w; cbn in Hin, Hdr, Hst; subst. cbn.
    unfold ws_to_tcp_world; cbn. now rewrite !app_nil_r.
  - inversion Hne as [|? ? Hm Hne']; subst.
    cbn [List.length Nat.add]. rewrite while_true_unfold.
    rewrite (@ws_to_tcp_iteration_relays w m (map (@Ok bytes) msgs ++ inbox)
               (repeat (Ok tt) (List.length msgs) ++ drains) Hm Hin Hdr Hst).
    rewrite (IH _ fuel inbox drains Hne'); try reflexivity.
    f_equal. unfold ws_to_tcp_world, relayed_to_tcp; cbn.
    now rewrite <- !app_assoc.
Qed.

(** *** The whole of [forward_ws_to_tcp] *)

(** The pump, read off the way its loop ends. *)
Lemma forward_ws_to_tcp_upto_unfold (fuel : nat) (w : World) :
  forward_ws_to_tcp_upto fuel the_websocket the_writer w =
  match while_true fuel (ws_to_tcp_iteration the_websocket the_writer) w with
  | (Returned _, w1) => (Returned tt, closed_by_pump w1)
  | (Raised e, w1) =>
      if isinstance_any e [WebSocketDisconnect; IncompleteReadError]
      then (Returned tt, closed_by_pump w1)
      else if isinstance e Exception
           then (Returned tt, closed_by_pump (log (EvPrint (ErrorForwardingWsToTcp e)) w1))
           else (Raised e, closed_by_pump w1)
  | (Pending, w1) => (Pending, w1)
  | (OutOfFuel, w1) => (OutOfFuel, w1)
  end.
Proof.
  unfold forward_ws_to_tcp_upto, try_finally, try_except, closed_by_pump.
  destruct (while_true _ _ w) as [[[]|e| |] w1];
    cbn [dispatch catches handler]; try reflexivity.
  - run_bind. unfold writer_is_closing.
    destruct (transport_is_closing (tcp_state w1)); reflexivity.
  - destruct (isinstance_any e _); [|destruct (isinstance e Exception)];
      run_bind; unfold print, writer_is_closing;
      change (tcp_state (log _ w1)) with (tcp_state w1);
      destruct (transport_is_closing (tcp_state w1)); reflexivity.
Qed.

(** C1.  A clean session: the client sends the non-empty messages [msgs]
    and then closes, the connection is established and every flush
    succeeds.  The pump returns; the TCP stream has received the
    concatenation of the payloads, in the order they arrived; and each
    payload is written whole and drained before the next [receive_bytes]. *)
Theorem ws_to_tcp_relays_messages_in_order
    (w : World) (msgs : list bytes) (inbox : list (reply bytes))
    (drains : list (reply unit)) :
  Forall (fun m => m <> []) msgs ->
  ws_inbox w = map (@Ok bytes) msgs ++ Raise WebSocketDisconnect :: inbox ->
  wr_drain_replies w = repeat (Ok tt) (List.length msgs) ++ drains ->
  tcp_state w = Established ->
  exists w' : World,
    forward_ws_to_tcp the_websocket the_writer w = (Returned tt, w')
    /\ wr_out w' = wr_out w ++ List.concat msgs
    /\ trace w' =
       trace w ++ relayed_to_tcp msgs
       ++ [EvReceiveBytes (Raise WebSocketDisconnect); EvIsClosing false; EvClose].
Proof.
  intros Hne Hin Hdr Hst.
  eexists. split; [|split].
  - unfold forward_ws_to_tcp, ws_to_tcp_fuel.
    rewrite forward_ws_to_tcp_upto_unfold.
    rewrite Hin, length_app, length_map. cbn [List.length].
    rewrite <- Nat.add_succ_r.
    rewrite (@ws_to_tcp_loop_relays msgs w (S (S (List.length inbox))) _ _ Hne Hin Hdr Hst).
    rewrite while_true_unfold.
    unfold ws_to_tcp_iteration. run_bind. cbn. reflexivity.
  - reflexivity.
  - cbn. now rewrite <- !app_assoc.
Qed.

(** *** Every run of [forward_ws_to_tcp] *)

Lemma ws_to_tcp_iteration_unfold (w : World) :
  ws_to_tcp_iteration the_websocket the_writer w =
  match receive_bytes the_websocket w with
  | (Returned data, w1) =>
      if py_not data then (Returned Break, w1)
      else
        match writer_write the_writer data w1 with
        | (Returned _, w2) =>
            match writer_drain the_writer w2 with
            | (Returned _, w3) => (Returned Continue, w3)
            | (Raised e, w3) => (Raised e, w3)
            | (Pending, w3) => (Pending, w3)
            | (OutOfFuel, w3) => (OutOfFuel, w3)
            end
        | (Raised e, w2) => (Raised e, w2)
        | (Pending, w2) => (Pending, w2)
        | (OutOfFuel, w2) => (OutOfFuel, w2)
        end
  | (Raised e, w1) => (Raised e, w1)
  | (Pending, w1) => (Pending, w1)
  | (OutOfFuel, w1) => (OutOfFuel, w1)
  end.
Proof.
  unfold ws_to_tcp_iteration. run_bind.
  destruct (receive_bytes the_websocket w) as [[data|e| |] w1]; auto.
  destruct (py_not data); auto.
Qed.

(** Read the fields of a world built by the setters, in a hypothesis. *)
Ltac world_cbn_in H :=
  cbn [ws_headers ws_accept_replies ws_inbox ws_send_replies ws_close_replies
       tcp_connect_replies tcp_state rd_buffer rd_eof rd_arrivals wr_out
       wr_drain_replies wr_wait_closed_replies loop_tasks loop_done
       loop_cancel_requested loop_ticks trace log set_ws_accept_replies
       set_ws_inbox set_ws_send_replies set_ws_close_replies
       set_tcp_connect_replies set_tcp_state set_reader set_wr_out
       set_wr_drain_replies set_wr_wait_closed_replies set_loop] in H.

(** Compare two worlds built by the setters field by field. *)
Ltac world_unfold :=
  unfold log, set_ws_accept_replies, set_ws_inbox, set_ws_send_replies,
    set_ws_close_replies, set_tcp_connect_replies, set_tcp_state, set_reader,
    set_wr_out, set_wr_drain_replies, set_wr_wait_closed_replies, set_loop,
    ws_to_tcp_world;
  world_cbn.

(** A non-empty write to a transport that is not half-closed returns; the
    transport takes the bytes or drops them. *)
Lemma writer_write_spec (m : bytes) (w : World) :
  m <> [] ->
  tcp_state w <> WriteShut ->
  writer_write the_writer m w =
  (Returned tt,
   ws_to_tcp_world w (ws_inbox w)
     (wr_out w ++ List.concat (taken (tcp_state w) [m])) (wr_drain_replies w)
     (after_send (tcp_state w)) (trace w ++ [EvWrite m (Ok tt)])).
Proof.
  intros Hm Hst.
  destruct w as [h ac inbox sd cl cn st bf eo ar out dr wc ts dn cr tk tr].
  destruct m as [|x m]; [congruence|].
  cbn [tcp_state] in Hst. unfold writer_write, ws_to_tcp_world. world_cbn.
  destruct st as [|[|n]| |]; try congruence;
    cbn [taken takes after_send List.concat app]; world_cbn;
    rewrite ?app_nil_r; reflexivity.
Qed.

Lemma taken_established (msgs : list bytes) : taken Established msgs = msgs.
Proof. induction msgs as [|m msgs IH]; cbn; congruence. Qed.

Lemma after_sends_established (msgs : list bytes) :
  after_sends Established msgs = Established.
Proof. induction msgs as [|m msgs IH]; cbn; congruence. Qed.

Lemma after_send_not_shut (s : transport_state) :
  s <> WriteShut -> after_send s <> WriteShut.
Proof. destruct s as [|[|n]| |]; cbn; congruence. Qed.

Lemma after_send_closing (s : transport_state) :
  transport_is_closing s = true -> after_send s = Closing.
Proof. destruct s as [|[|n]| |]; cbn; congruence. Qed.

Lemma closing_is_closing (s : transport_state) :
  transport_is_closing s = true -> s = Closing.
Proof. destruct s; try discriminate. reflexivity. Qed.

(** Close the side conditions about a run that ends within one
    iteration. *)
Ltac ws_run_end :=
  cbn [fst snd received drained List.length app]; world_cbn;
  repeat match goal with |- _ /\ _ => split end;
  try solve [auto using ws_to_tcp_run, closing_is_closing, after_send_closing];
  try discriminate;
  try solve [rewrite <- ?app_assoc; cbn [app]; rewrite ?app_nil_r; reflexivity];
  try solve [cbn [taken List.concat app]; rewrite ?app_nil_r; reflexivity];
  try solve [intros _; right; split; [cbn [List.length]; lia | reflexivity]];
  try solve [intros _; left; split; reflexivity];
  try solve [let Hev := fresh in
             intros ? Hev; cbn [In] in Hev;
             repeat (destruct Hev as [Hev|Hev]; [discriminate Hev|]);
             contradiction].

(** Every run of the loop is one of [ws_to_tcp_run].  It takes off the
    scripts what it has received and flushed; the TCP stream grows by what
    the transport took; the run is pending only where the environment does
    not answer; and a flush that failed leaves a closed transport. *)
Lemma ws_to_tcp_loop_runs (fuel : nat) :
  forall w : World,
    List.length (ws_inbox w) < fuel ->
    let r := while_true fuel (ws_to_tcp_iteration the_websocket the_writer) w in
    exists (written : list bytes) (tr : list event),
      trace (snd r) = trace w ++ tr
      /\ ws_to_tcp_run written (fst r) tr
      /\ wr_out (snd r)
         = wr_out w ++ List.concat (taken (tcp_state w) written)
      /\ ws_inbox w = received tr ++ ws_inbox (snd r)
      /\ wr_drain_replies w = drained tr ++ wr_drain_replies (snd r)
      /\ (fst r = Pending ->
          (List.length (drained tr) = List.length written
           /\ ws_inbox (snd r) = [])
          \/ (List.length (drained tr) < List.length written
              /\ wr_drain_replies (snd r) = []))
      /\ (transport_is_closing (tcp_state w) = true ->
          tcp_state (snd r) = Closing)
      /\ (forall e : exn,
            In (EvDrain (Raise e)) tr -> isinstance e Exception = true ->
            tcp_state (snd r) = Closing).
Proof.
  induction fuel as [|fuel IH]; intros w Hfuel; [lia|].
  cbv zeta. rewrite while_true_unfold, ws_to_tcp_iteration_unfold.
  unfold receive_bytes, awaiting.
  destruct (ws_inbox w) as [|[[|x data]|e] inbox] eqn:Hin; cbn [py_not].
  - exists [], []. ws_run_end.
  - exists [], [EvReceiveBytes (Ok [])]. ws_run_end.
  - set (m := x :: data) in *.
    assert (Hm : m <> []) by (subst m; discriminate).
    assert (Hs : tcp_state w = WriteShut \/ tcp_state w <> WriteShut)
      by (destruct (tcp_state w); auto; right; discriminate).
    destruct Hs as [Hst|Hst].
    + unfold writer_write. world_cbn. rewrite Hst.
      exists [], [EvReceiveBytes (Ok m); EvWrite m (Raise RuntimeError)].
      ws_run_end.
    + rewrite (@writer_write_spec m
                 (log (EvReceiveBytes (@Ok bytes m)) (set_ws_inbox inbox w)) Hm)
        by (world_cbn; exact Hst).
      unfold ws_to_tcp_world, writer_drain. world_cbn.
      destruct (wr_drain_replies w) as [|[[]|e] dr] eqn:Hdr.
      * exists [m], [EvReceiveBytes (Ok m); EvWrite m (Ok tt)]. ws_run_end.
      * match goal with
        | |- context [while_true fuel _ ?w3] =>
            destruct (IH w3)
              as [written [tr [Htr [Hrun [Hout [Hrcv [Hdrn [Hpend
                    [Hmono Hfail]]]]]]]]];
              [ world_cbn; cbn [List.length] in Hfuel; lia | ];
              cbv zeta in Htr, Hrun, Hout, Hrcv, Hdrn, Hpend, Hmono, Hfail;
              world_cbn_in Htr; world_cbn_in Hout; world_cbn_in Hrcv;
              world_cbn_in Hdrn; world_cbn_in Hmono
        end.
        exists (m :: written),
          (EvReceiveBytes (Ok m) :: EvWrite m (Ok tt) :: EvDrain (Ok tt) :: tr).
        cbn [fst snd received drained List.length app].
        repeat match goal with |- _ /\ _ => split end.
        -- rewrite Htr. now rewrite <- !app_assoc.
        -- now constructor.
        -- rewrite Hout. cbn [taken]. destruct (takes (tcp_state w));
             cbn [List.concat app]; now rewrite <- ?app_assoc, ?app_nil_r.
        -- now f_equal.
        -- now f_equal.
        -- intros Hp. destruct (Hpend Hp) as [[Hl Hi]|[Hl Hd]];
             [left | right]; split; auto; lia.
        -- intros Hcl. apply Hmono. now rewrite (after_send_closing _ Hcl).
        -- intros e [Hev|[Hev|[Hev|Hev]]] He; try discriminate Hev.
           now apply (Hfail e).
      * exists [m],
          [EvReceiveBytes (Ok m); EvWrite m (Ok tt); EvDrain (Raise e)].
        destruct (isinstance e Exception) eqn:He; ws_run_end;
          intros e' [Hev|[Hev|[Hev|[]]]] He'; try discriminate Hev;
          injection Hev as <-; congruence.
  - exists [], [EvReceiveBytes (Raise e)]. ws_run_end.
Qed.

Lemma ws_to_tcp_run_fuel (written : list bytes) (o : outcome unit)
    (tr : list event) :
  ws_to_tcp_run written o tr -> o <> OutOfFuel.
Proof. induction 1; auto; discriminate. Qed.

Lemma ws_to_tcp_run_events (written : list bytes) (o : outcome unit)
    (tr : list event) :
  ws_to_tcp_run written o tr -> Forall ws_to_tcp_try_event tr.
Proof. induction 1; repeat constructor; auto. Qed.

(** The run of the pump's loop, with the fuel the pump gives it. *)
Lemma forward_ws_to_tcp_loop_run (w : World) :
  let r :=
    while_true (ws_to_tcp_fuel w)
      (ws_to_tcp_iteration the_websocket the_writer) w in
  exists (written : list bytes) (tr : list event),
    trace (snd r) = trace w ++ tr
    /\ ws_to_tcp_run written (fst r) tr
    /\ wr_out (snd r)
       = wr_out w ++ List.concat (taken (tcp_state w) written)
    /\ ws_inbox w = received tr ++ ws_inbox (snd r)
    /\ wr_drain_replies w = drained tr ++ wr_drain_replies (snd r)
    /\ (fst r = Pending ->
        (List.length (drained tr) = List.length written
         /\ ws_inbox (snd r) = [])
        \/ (List.length (drained tr) < List.length written
            /\ wr_drain_replies (snd r) = []))
    /\ (transport_is_closing (tcp_state w) = true ->
        tcp_state (snd r) = Closing)
    /\ (forall e : exn,
          In (EvDrain (Raise e)) tr -> isinstance e Exception = true ->
          tcp_state (snd r) = Closing).
Proof. apply ws_to_tcp_loop_runs. unfold ws_to_tcp_fuel. lia. Qed.

Lemma closed_by_pump_state (w : World) : tcp_state (closed_by_pump w) = Closing.
Proof.
  unfold closed_by_pump. destruct (tcp_state w) eqn:E; cbn; auto.
Qed.

Lemma closed_by_pump_trace (w : World) :
  trace (closed_by_pump w) = trace w ++ cleanup_events (tcp_state w).
Proof.
  unfold closed_by_pump, cleanup_events.
  destruct (transport_is_closing (tcp_state w)); cbn;
    now rewrite <- ?app_assoc.
Qed.

(** However the pump is run, its loop ends within the fuel it is given,
    having made only the calls of the loop. *)
Lemma forward_ws_to_tcp_loop_ends (w : World) :
  exists (o : outcome unit) (w1 : World),
    while_true (ws_to_tcp_fuel w)
      (ws_to_tcp_iteration the_websocket the_writer) w = (o, w1)
    /\ o <> OutOfFuel
    /\ extends_by ws_to_tcp_try_event w w1.
Proof.
  destruct (forward_ws_to_tcp_loop_run w) as [written [tr [Htr [Hrun _]]]].
  cbv zeta in *.
  destruct (while_true _ _ w) as [o w1]. cbn [fst snd] in *.
  exists o, w1. split; [reflexivity|]. split.
  - exact (ws_to_tcp_run_fuel Hrun).
  - exists tr. split; [assumption|]. exact (ws_to_tcp_run_events Hrun).
Qed.

(** Every way out of the pump: the outcome, and the world as the [try]
    statement left it, before the [finally] block ran. *)
Lemma forward_ws_to_tcp_exits (w : World) :
  let r := forward_ws_to_tcp the_websocket the_writer w in
  fst r <> OutOfFuel
  /\ (fst r = Returned tt \/ fst r = Pending
      \/ exists e, fst r = Raised e /\ isinstance e Exception = false)
  /\ (fst r <> Pending ->
      exists w1 : World,
        snd r = closed_by_pump w1
        /\ extends_by ws_to_tcp_try_event w w1).
Proof.
  destruct (forward_ws_to_tcp_loop_ends w) as [o [w1 [Hrun [Hfl Hext]]]].
  unfold forward_ws_to_tcp. rewrite forward_ws_to_tcp_upto_unfold, Hrun.
  destruct o as [[]|e| |]; cbn [fst snd].
  - repeat split; [discriminate | auto | eauto].
  - destruct (isinstance_any e _); [|destruct (isinstance e Exception) eqn:He];
      cbn [fst snd]; (split; [discriminate|]); (split; [eauto|]); intros _.
    + eauto.
    + eexists. split; [reflexivity|].
      eapply extends_by_trans; [eassumption|].
      now apply extends_by_log.
    + eauto.
  - repeat split; [discriminate | auto | congruence].
  - congruence.
Qed.

(** The fuel of [forward_ws_to_tcp] is enough: with more, the pump does
    the same. *)
Lemma forward_ws_to_tcp_enough_fuel (w : World) (extra : nat) :
  forward_ws_to_tcp_upto (ws_to_tcp_fuel w + extra) the_websocket the_writer w
  = forward_ws_to_tcp the_websocket the_writer w.
Proof.
  unfold forward_ws_to_tcp. rewrite !forward_ws_to_tcp_upto_unfold.
  destruct (forward_ws_to_tcp_loop_ends w) as [o [w1 [Hrun [Hfl _]]]].
  rewrite while_true_more_fuel; [reflexivity|]. now rewrite Hrun.
Qed.

(** *** Messages relayed before the pump ends *)

(** A non-empty message whose flush succeeds, on a transport that is not
    half-closed: the iteration passes it to the transport and continues. *)
Lemma ws_to_tcp_iteration_passes (w : World) (m : bytes)
    (inbox : list (reply bytes)) (drains : list (reply unit)) :
  m <> [] ->
  ws_inbox w = Ok m :: inbox ->
  wr_drain_replies w = Ok tt :: drains ->
  tcp_state w <> WriteShut ->
  ws_to_tcp_iteration the_websocket the_writer w =
  (Returned Continue,
   ws_to_tcp_world w inbox
     (wr_out w ++ List.concat (taken (tcp_state w) [m])) drains
     (after_send (tcp_state w)) (trace w ++ relayed_to_tcp [m])).
Proof.
  intros Hm Hin Hdr Hst.
  destruct w as [h ac inbox0 sd cl cn st bf eo ar out dr wc ts dn cr tk tr].
  cbn [ws_inbox wr_drain_replies tcp_state] in Hin, Hdr, Hst. subst inbox0 dr.
  destruct m as [|x m]; [congruence|].
  destruct st as [|[|n]| |]; try congruence;
    cbv -[app]; repeat rewrite <- app_assoc; rewrite ?app_nil_r; reflexivity.
Qed.

Lemma ws_to_tcp_loop_passes (msgs : list bytes) :
  forall (w : World) (fuel : nat) (inbox : list (reply bytes))
         (drains : list (reply unit)),
    Forall (fun m => m <> []) msgs ->
    ws_inbox w = map (@Ok bytes) msgs ++ inbox ->
    wr_drain_replies w = repeat (Ok tt) (List.length msgs) ++ drains ->
    (msgs <> [] -> tcp_state w <> WriteShut) ->
    while_true (List.length msgs + fuel)
      (ws_to_tcp_iteration the_websocket the_writer) w =
    while_true fuel (ws_to_tcp_iteration the_websocket the_writer)
      (ws_to_tcp_world w inbox
         (wr_out w ++ List.concat (taken (tcp_state w) msgs)) drains
         (after_sends (tcp_state w) msgs) (trace w ++ relayed_to_tcp msgs)).
Proof.
  induction msgs as [|m msgs IH]; intros w fuel inbox drains Hne Hin Hdr Hst.
  - destruct w; cbn in Hin, Hdr; subst. cbn.
    unfold ws_to_tcp_world; cbn. now rewrite !app_nil_r.
  - inversion Hne as [|? ? Hm Hne']; subst.
    assert (Hst' : tcp_state w <> WriteShut) by (apply Hst; discriminate).
    cbn [List.length Nat.add]. rewrite while_true_unfold.
    rewrite (@ws_to_tcp_iteration_passes w m (map (@Ok bytes) msgs ++ inbox)
               (repeat (Ok tt) (List.length msgs) ++ drains) Hm Hin Hdr Hst').
    rewrite (IH _ fuel inbox drains Hne'); try reflexivity.
    + f_equal. unfold ws_to_tcp_world, relayed_to_tcp. world_cbn.
      cbn [taken after_sends flat_map].
      f_equal; [|now rewrite <- !app_assoc].
      destruct (takes (tcp_state w)); cbn [List.concat app];
        now rewrite <- ?app_assoc, ?app_nil_r.
    + intros _. unfold ws_to_tcp_world. world_cbn.
      now apply after_send_not_shut.
Qed.

(** C8.  A zero-length message ends the pump the way a clean close does,
    at whatever iteration of the loop it is received.  After any non-empty
    messages [msgs] that the pump has relayed, both runs return, and leave
    the same world but for the recorded reply itself.  Nothing is written
    for the empty message: the TCP stream is as the messages before it
    left it, and the only calls after the receive are those of the
    [finally] block. *)
Theorem empty_message_ends_pump_like_clean_close
    (w : World) (msgs : list bytes) (inbox : list (reply bytes))
    (drains : list (reply unit)) :
  Forall (fun m => m <> []) msgs ->
  ws_inbox w = map (@Ok bytes) msgs ++ Ok [] :: inbox ->
  wr_drain_replies w = repeat (Ok tt) (List.length msgs) ++ drains ->
  (msgs <> [] -> tcp_state w <> WriteShut) ->
  let relayed :=
    ws_to_tcp_world w inbox
      (wr_out w ++ List.concat (taken (tcp_state w) msgs)) drains
      (after_sends (tcp_state w) msgs) (trace w ++ relayed_to_tcp msgs) in
  let after (r : reply bytes) :=
    closed_by_pump (log (EvReceiveBytes r) relayed) in
  forward_ws_to_tcp the_websocket the_writer w = (Returned tt, after (Ok []))
  /\ forward_ws_to_tcp the_websocket the_writer
       (set_ws_inbox
          (map (@Ok bytes) msgs ++ Raise WebSocketDisconnect :: inbox) w)
     = (Returned tt, after (Raise WebSocketDisconnect))
  /\ wr_out (after (Ok []))
     = wr_out w ++ List.concat (taken (tcp_state w) msgs)
  /\ trace (after (Ok [])) =
     trace w ++ relayed_to_tcp msgs
     ++ EvReceiveBytes (Ok [])
        :: cleanup_events (after_sends (tcp_state w) msgs).
Proof.
  intros Hne Hin Hdr Hst relayed after. subst after relayed. cbv beta.
  repeat split.
  - unfold forward_ws_to_tcp, ws_to_tcp_fuel.
    rewrite forward_ws_to_tcp_upto_unfold, Hin, length_app, length_map.
    cbn [List.length]. rewrite <- Nat.add_succ_r.
    rewrite (@ws_to_tcp_loop_passes msgs w (S (S (List.length inbox)))
               (Ok [] :: inbox) drains Hne Hin Hdr Hst).
    rewrite while_true_unfold, ws_to_tcp_iteration_unfold.
    unfold receive_bytes, awaiting, ws_to_tcp_world. world_cbn.
    cbn [py_not]. reflexivity.
  - unfold forward_ws_to_tcp, ws_to_tcp_fuel.
    rewrite forward_ws_to_tcp_upto_unfold. cbn [ws_inbox set_ws_inbox].
    rewrite length_app, length_map.
    cbn [List.length]. rewrite <- Nat.add_succ_r.
    rewrite (@ws_to_tcp_loop_passes msgs _ (S (S (List.length inbox)))
               (Raise WebSocketDisconnect :: inbox) drains Hne);
      [ | reflexivity | exact Hdr | exact Hst ].
    rewrite while_true_unfold, ws_to_tcp_iteration_unfold.
    unfold receive_bytes, awaiting, ws_to_tcp_world. world_cbn.
    reflexivity.
  - unfold closed_by_pump. world_cbn.
    destruct (transport_is_closing _); reflexivity.
  - rewrite closed_by_pump_trace. unfold ws_to_tcp_world. world_cbn.
    now rewrite <- !app_assoc.
Qed.

(** C7, as the code has it.  On every way out of the pump (return or
    raise), the [finally] block has run last, in the world [w1] the [try]
    statement left: it asked [is_closing] and, when the answer was false,
    called [writer.close()]; the transport is closing afterwards.  The
    answer is that of the transport at that moment, not at the start of
    the pump: it is true when the transport was closing before the pump
    started, and true after a flush that failed, for the transport has
    closed itself by then and [writer.close()] is not called. *)
Theorem ws_to_tcp_exit_closes_transport
    (w w' : World) (o : outcome unit) :
  forward_ws_to_tcp the_websocket the_writer w = (o, w') ->
  o <> Pending ->
  tcp_state w' = Closing
  /\ exists (w1 : World) (tr : list event),
       Forall ws_to_tcp_try_event tr
       /\ trace w1 = trace w ++ tr
       /\ w' = closed_by_pump w1
       /\ trace w' = trace w ++ tr ++ cleanup_events (tcp_state w1)
       /\ (transport_is_closing (tcp_state w) = true ->
           cleanup_events (tcp_state w1) = [EvIsClosing true])
       /\ (forall e : exn,
             In (EvDrain (Raise e)) tr -> isinstance e Exception = true ->
             cleanup_events (tcp_state w1) = [EvIsClosing true]).
Proof.
  intros Hrun Hexit.
  destruct (forward_ws_to_tcp_loop_run w)
    as [written [tr [Htr [Hloop [_ [_ [_ [_ [Hmono Hfail]]]]]]]]].
  cbv zeta in *. revert Hrun. unfold forward_ws_to_tcp.
  rewrite forward_ws_to_tcp_upto_unfold.
  destruct (while_true _ _ w) as [o1 w1]. cbn [fst snd] in *.
  pose proof (ws_to_tcp_run_events Hloop) as Hev.
  assert (Hclosed : forall (w2 : World) (pre : list event),
    trace w2 = trace w1 ++ pre -> tcp_state w2 = tcp_state w1 ->
    Forall ws_to_tcp_try_event pre ->
    (forall e : exn, ~ In (EvDrain (Raise e)) pre) ->
    tcp_state (closed_by_pump w2) = Closing
    /\ exists (w1' : World) (tr' : list event),
         Forall ws_to_tcp_try_event tr'
         /\ trace w1' = trace w ++ tr'
         /\ closed_by_pump w2 = closed_by_pump w1'
         /\ trace (closed_by_pump w2) =
            trace w ++ tr' ++ cleanup_events (tcp_state w1')
         /\ (transport_is_closing (tcp_state w) = true ->
             cleanup_events (tcp_state w1') = [EvIsClosing true])
         /\ (forall e : exn,
               In (EvDrain (Raise e)) tr' ->
               isinstance e Exception = true ->
               cleanup_events (tcp_state w1') = [EvIsClosing true])).
  { intros w2 pre Htr2 Hst2 Hpre Hnd. split; [apply closed_by_pump_state|].
    exists w2, (tr ++ pre).
    repeat split.
    - now apply Forall_app.
    - rewrite Htr2, Htr. now rewrite <- app_assoc.
    - rewrite closed_by_pump_trace, Htr2, Htr. now rewrite <- !app_assoc.
    - intros Hcl. unfold cleanup_events. rewrite Hst2, (Hmono Hcl).
      reflexivity.
    - intros e Hin He. apply in_app_or in Hin. destruct Hin as [Hin|Hin].
      + unfold cleanup_events. rewrite Hst2, (Hfail e Hin He). reflexivity.
      + destruct (Hnd e Hin). }
  destruct o1 as [[]|e| |].
  - intros Hrun. injection Hrun as <- <-.
    apply (Hclosed w1 []); auto. now rewrite app_nil_r.
  - destruct (isinstance_any e _); [|destruct (isinstance e Exception)];
      intros Hrun; injection Hrun as <- <-.
    + apply (Hclosed w1 []); auto. now rewrite app_nil_r.
    + apply (Hclosed _ [EvPrint (ErrorForwardingWsToTcp e)]); auto.
      * now repeat constructor.
      * intros e' [Hpr|[]]. discriminate Hpr.
    + apply (Hclosed w1 []); auto. now rewrite app_nil_r.
  - intros Hrun. injection Hrun as <- _. congruence.
  - now destruct (ws_to_tcp_run_fuel Hloop).
Qed.

(** ** The pump from TCP to the WebSocket *)

(** *** Reading from the TCP stream *)

Lemma wait_for_data_spec (arrivals : list arrival) :
  match wait_for_data arrivals with
  | GotData data rest =>
      data <> [] /\ fed arrivals = data ++ fed rest
      /\ List.length data + arrivals_size rest < arrivals_size arrivals
  | GotEof rest | GotException _ rest =>
      fed arrivals = fed rest /\ arrivals_size rest < arrivals_size arrivals
  | Never => True
  end.
Proof.
  induction arrivals as [|[[|x data]| |e] rest IH]; cbn; auto.
  - destruct (wait_for_data rest); intuition lia.
  - repeat split; [discriminate | lia].
Qed.

Lemma wait_for_end_spec (arrivals : list arrival) :
  match wait_for_end arrivals with
  | GotData _ _ => False
  | GotEof rest | GotException _ rest =>
      fed arrivals = fed rest /\ arrivals_size rest < arrivals_size arrivals
  | Never => True
  end.
Proof.
  induction arrivals as [|[data| |e] rest IH]; cbn [wait_for_end]; auto.
  destruct (wait_for_end rest) as [d r|r|e r|]; auto;
    destruct IH as [Hfed Hsz]; cbn [fed arrivals_size];
    (split; [now rewrite Hfed | lia]).
Qed.

Lemma wait_for_transport_spec (s : transport_state) (arrivals : list arrival) :
  match wait_for_transport s arrivals with
  | GotData data rest =>
      data <> [] /\ fed arrivals = data ++ fed rest
      /\ List.length data + arrivals_size rest < arrivals_size arrivals
  | GotEof rest | GotException _ rest =>
      fed arrivals = fed rest /\ arrivals_size rest < arrivals_size arrivals
  | Never => True
  end.
Proof.
  unfold wait_for_transport. destruct (transport_is_closing s).
  - pose proof (wait_for_end_spec arrivals) as H.
    destruct (wait_for_end arrivals); auto. contradiction.
  - apply wait_for_data_spec.
Qed.

(** [reader.read(n)] for a positive [n]: at most [n] bytes, taken off the
    front of what is pending.  A read that returns leaves the transport as
    it is; one that raises an [Exception] leaves it closed; one that stays
    pending has a starved reader. *)
Lemma reader_read_spec (n : nat) (w : World) :
  0 < n ->
  let r := reader_read the_reader n w in
  ws_send_replies (snd r) = ws_send_replies w
  /\ ws_close_replies (snd r) = ws_close_replies w
  /\ match fst r with
     | Returned data =>
         trace (snd r) = trace w ++ [EvRead n (Ok data)]
         /\ List.length data <= n
         /\ pending_bytes w = data ++ pending_bytes (snd r)
         /\ (data <> [] -> tcp_to_ws_fuel (snd r) < tcp_to_ws_fuel w)
         /\ tcp_state (snd r) = tcp_state w
     | Raised e =>
         trace (snd r) = trace w ++ [EvRead n (Raise e)]
         /\ pending_bytes w = pending_bytes (snd r)
         /\ tcp_state (snd r)
            = (if isinstance e Exception then Closing else tcp_state w)
     | Pending => snd r = w /\ starved w
     | OutOfFuel => False
     end.
Proof.
  intros Hn. destruct n as [|n]; [lia|].
  destruct w as [h ac inbox sd cl cn st bf eo ar out dr wc ts dn cr tk tr].
  unfold reader_read, pending_bytes, tcp_to_ws_fuel, starved.
  cbn [rd_buffer rd_eof rd_arrivals tcp_state].
  destruct bf as [|x bf].
  - destruct eo.
    + cbn [fst snd]. repeat split; auto; [cbn; lia | congruence].
    + pose proof (wait_for_transport_spec st ar) as Hw.
      destruct (wait_for_transport st ar) as [data rest|rest|e rest|];
        cbn [fst snd].
      * destruct Hw as [Hne [Hfed Hsz]]. repeat split; auto.
        -- apply firstn_le_length.
        -- cbn [rd_buffer rd_arrivals set_reader log app].
           now rewrite Hfed, app_assoc, firstn_skipn.
        -- intros _. cbn [rd_buffer rd_arrivals set_reader log].
           rewrite length_skipn. cbn [List.length Nat.add]. lia.
      * destruct Hw as [Hfed Hsz]. repeat split; auto; [cbn; lia | congruence].
      * destruct Hw as [Hfed Hsz].
        destruct (isinstance e Exception); repeat split; auto.
      * repeat split; auto.
  - cbn [fst snd]. repeat split; auto.
    + apply firstn_le_length.
    + cbn [rd_buffer rd_arrivals set_reader log].
      now rewrite app_assoc, firstn_skipn.
    + intros _. cbn [rd_buffer rd_arrivals set_reader log].
      rewrite length_skipn. cbn [List.length]. lia.
Qed.

Lemma READ_SIZE_pos : 0 < READ_SIZE.
Proof. unfold READ_SIZE. apply Nat.lt_0_succ. Qed.

(** *** The loop of [forward_tcp_to_ws] *)

Lemma tcp_to_ws_iteration_unfold (w : World) :
  tcp_to_ws_iteration the_websocket the_reader w =
  match reader_read the_reader READ_SIZE w with
  | (Returned data, w1) =>
      if py_not data then (Returned Break, w1)
      else
        match send_bytes the_websocket data w1 with
        | (Returned _, w2) => (Returned Continue, w2)
        | (Raised e, w2) => (Raised e, w2)
        | (Pending, w2) => (Pending, w2)
        | (OutOfFuel, w2) => (OutOfFuel, w2)
        end
  | (Raised e, w1) => (Raised e, w1)
  | (Pending, w1) => (Pending, w1)
  | (OutOfFuel, w1) => (OutOfFuel, w1)
  end.
Proof.
  unfold tcp_to_ws_iteration. run_bind.
  destruct (reader_read the_reader READ_SIZE w) as [[data|e| |] w1]; auto.
  destruct (py_not data); auto.
Qed.

(** Every run of the loop is one of [tcp_to_ws_run], and takes the bytes it
    consumes off the front of the pending ones.  The run is pending only
    where the environment does not answer: at a read with a starved
    reader, or at a send.  The transport changes state only when a read
    fails. *)
Lemma tcp_to_ws_loop_runs (fuel : nat) :
  forall w : World,
    tcp_to_ws_fuel w <= fuel ->
    let r := while_true fuel (tcp_to_ws_iteration the_websocket the_reader) w in
    exists (consumed : bytes) (sent : list bytes) (tr : list event),
      trace (snd r) = trace w ++ tr
      /\ tcp_to_ws_run consumed sent (fst r) tr
      /\ pending_bytes w = consumed ++ pending_bytes (snd r)
      /\ ws_close_replies (snd r) = ws_close_replies w
      /\ (fst r = Pending ->
          (consumed = List.concat sent /\ starved (snd r))
          \/ (consumed <> List.concat sent /\ ws_send_replies (snd r) = []))
      /\ (forall e : exn,
            In (EvRead READ_SIZE (Raise e)) tr ->
            isinstance e Exception = true -> tcp_state (snd r) = Closing)
      /\ ((forall e : exn,
             In (EvRead READ_SIZE (Raise e)) tr ->
             isinstance e Exception = false) ->
          tcp_state (snd r) = tcp_state w).
Proof.
  induction fuel as [|fuel IH]; intros w Hfuel.
  { unfold tcp_to_ws_fuel in Hfuel. lia. }
  cbv zeta. rewrite while_true_unfold, tcp_to_ws_iteration_unfold.
  pose proof (@reader_read_spec READ_SIZE w READ_SIZE_pos) as Hread.
  cbv zeta in Hread. revert Hread.
  destruct (reader_read the_reader READ_SIZE w) as [[data|e| |] w1];
    cbn [fst snd]; intros [Hsd [Hcl Hread]].
  - destruct Hread as [Htr [Hlen [Hpend [Hdec Hst]]]].
    destruct data as [|x data]; cbn [py_not].
    + exists [], [], [EvRead READ_SIZE (Ok [])]. cbn [fst snd].
      repeat split; auto; try discriminate.
      * constructor.
      * intros e [Hev|[]]. discriminate Hev.
    + set (chunk := x :: data) in *.
      assert (Hne : chunk <> []) by (subst chunk; discriminate).
      specialize (Hdec Hne).
      unfold send_bytes, awaiting.
      destruct (ws_send_replies w1) as [|[[]|e] replies] eqn:Hreplies.
      * exists chunk, [], [EvRead READ_SIZE (Ok chunk)]. cbn [fst snd].
        repeat split; auto.
        -- now constructor.
        -- intros e [Hev|[]]. discriminate Hev.
      * cbn [fst snd].
        set (w2 := log (EvSendBytes chunk (Ok tt)) (set_ws_send_replies replies w1)).
        destruct (IH w2)
          as [consumed [sent [tr [Htr2 [Hrun [Hpend2 [Hcl2 [Hwait
                [Hfail Hkeep]]]]]]]]].
        { change (tcp_to_ws_fuel w2) with (tcp_to_ws_fuel w1). lia. }
        exists (chunk ++ consumed), (chunk :: sent),
          (EvRead READ_SIZE (Ok chunk) :: EvSendBytes chunk (Ok tt) :: tr).
        cbv zeta in Htr2, Hrun, Hpend2, Hcl2, Hwait, Hfail, Hkeep.
        repeat split.
        -- rewrite Htr2. subst w2. cbn [trace log set_ws_send_replies].
           rewrite Htr. now rewrite <- !app_assoc.
        -- now constructor.
        -- rewrite Hpend, <- app_assoc. f_equal. exact Hpend2.
        -- rewrite Hcl2. exact Hcl.
        -- intros Hp. cbn [List.concat].
           destruct (Hwait Hp) as [[Hc Hs]|[Hc Hs]]; [left | right];
             (split; [|exact Hs]).
           ++ now rewrite Hc.
           ++ intros Heq. apply app_inv_head in Heq. contradiction.
        -- intros e [Hev|[Hev|Hev]] He; try discriminate Hev.
           now apply (Hfail e).
        -- intros Hall. rewrite Hkeep; [exact Hst|].
           intros e Hev. apply Hall. right. now right.
      * exists chunk, [], [EvRead READ_SIZE (Ok chunk); EvSendBytes chunk (Raise e)].
        cbn [fst snd]. repeat split; auto; try discriminate.
        -- cbn [trace log set_ws_send_replies]. rewrite Htr.
           now rewrite <- !app_assoc.
        -- now constructor.
        -- intros e' [Hev|[Hev|[]]]; discriminate Hev.
  - destruct Hread as [Htr [Hpend Hst]].
    exists [], [], [EvRead READ_SIZE (Raise e)].
    repeat split; auto; try discriminate.
    + constructor.
    + intros e' [Hev|[]] He'. injection Hev as <-. now rewrite He' in Hst.
    + intros Hall. rewrite Hst, (Hall e); [reflexivity | now left].
  - destruct Hread as [-> Hstarved]. exists [], [], []. repeat split; auto.
    + now rewrite app_nil_r.
    + constructor.
    + intros e [].
  - contradiction.
Qed.

(** What the runs of the loop have in common. *)

Lemma tcp_to_ws_run_fuel (consumed : bytes) (sent : list bytes)
    (o : outcome unit) (tr : list event) :
  tcp_to_ws_run consumed sent o tr -> o <> OutOfFuel.
Proof. induction 1; auto; discriminate. Qed.

Lemma tcp_to_ws_run_accepted (consumed : bytes) (sent : list bytes)
    (o : outcome unit) (tr : list event) :
  tcp_to_ws_run consumed sent o tr -> accepted tr = sent.
Proof. induction 1; cbn; congruence. Qed.

Lemma tcp_to_ws_run_sent (consumed : bytes) (sent : list bytes)
    (o : outcome unit) (tr : list event) :
  tcp_to_ws_run consumed sent o tr ->
  exists lost : bytes,
    consumed = List.concat sent ++ lost /\ (o = Returned tt -> lost = []).
Proof.
  induction 1 as [ | | | data e | data | data consumed sent o tr Hne Hlen Hrun IH].
  - now exists [].
  - exists []. split; [reflexivity | discriminate].
  - exists []. split; [reflexivity | discriminate].
  - exists data. split; [reflexivity | discriminate].
  - exists data. split; [reflexivity | discriminate].
  - destruct IH as [lost [Hc Hl]]. exists lost. split; [|assumption].
    cbn. now rewrite Hc, app_assoc.
Qed.

Lemma tcp_to_ws_run_sends (consumed : bytes) (sent : list bytes)
    (o : outcome unit) (tr : list event) :
  tcp_to_ws_run consumed sent o tr -> Forall sends_no_empty_message tr.
Proof. induction 1; repeat constructor; auto. Qed.

Lemma tcp_to_ws_run_no_close (consumed : bytes) (sent : list bytes)
    (o : outcome unit) (tr : list event) :
  tcp_to_ws_run consumed sent o tr -> Forall (fun ev => ~ is_ws_close ev) tr.
Proof. induction 1; repeat constructor; auto. Qed.

(** *** The whole of [forward_tcp_to_ws] *)

Lemma forward_tcp_to_ws_upto_unfold (fuel : nat) (w : World) :
  forward_tcp_to_ws_upto fuel the_websocket the_reader w =
  let r := while_true fuel (tcp_to_ws_iteration the_websocket the_reader) w in
  tcp_to_ws_ending (fst r) (snd r).
Proof.
  unfold forward_tcp_to_ws_upto, try_finally, try_except, tcp_to_ws_ending,
    close_quietly, swallow.
  cbv zeta.
  destruct (while_true _ _ w) as [[[]|e| |] w1];
    cbn [dispatch catches handler fst snd]; try reflexivity.
  - unfold ws_close, awaiting.
    destruct (ws_close_replies w1) as [|[[]|e] rest]; try reflexivity.
    cbn [dispatch catches handler]. now destruct (isinstance e Exception).
  - destruct (isinstance e Exception); unfold print, ws_close, awaiting;
      cbn [ws_close_replies log];
      (destruct (ws_close_replies w1) as [|[[]|e'] rest]; try reflexivity);
      cbn [dispatch catches handler]; now destruct (isinstance e' Exception).
Qed.

(** Every run of the pump: a run of its loop, then its ending. *)
Lemma forward_tcp_to_ws_exits (w : World) :
  exists (o1 : outcome unit) (w1 : World) (consumed : bytes)
         (sent : list bytes) (tr : list event),
    trace w1 = trace w ++ tr
    /\ tcp_to_ws_run consumed sent o1 tr
    /\ pending_bytes w = consumed ++ pending_bytes w1
    /\ ws_close_replies w1 = ws_close_replies w
    /\ forward_tcp_to_ws the_websocket the_reader w = tcp_to_ws_ending o1 w1.
Proof.
  destruct (@tcp_to_ws_loop_runs (tcp_to_ws_fuel w) w (le_n _))
    as [consumed [sent [tr [Htr [Hrun [Hpend [Hcl _]]]]]]].
  unfold forward_tcp_to_ws. rewrite forward_tcp_to_ws_upto_unfold.
  cbv zeta in *.
  destruct (while_true _ _ w) as [o1 w1]. cbn [fst snd] in *.
  now exists o1, w1, consumed, sent, tr.
Qed.

(** The fuel of [forward_tcp_to_ws] is enough as well. *)
Lemma forward_tcp_to_ws_enough_fuel (w : World) (extra : nat) :
  forward_tcp_to_ws_upto (tcp_to_ws_fuel w + extra) the_websocket the_reader w
  = forward_tcp_to_ws the_websocket the_reader w.
Proof.
  unfold forward_tcp_to_ws. rewrite !forward_tcp_to_ws_upto_unfold. cbv zeta.
  destruct (@tcp_to_ws_loop_runs (tcp_to_ws_fuel w) w (le_n _))
    as [consumed [sent [tr [_ [Hrun _]]]]].
  rewrite while_true_more_fuel; [reflexivity|].
  exact (tcp_to_ws_run_fuel Hrun).
Qed.

Lemma close_quietly_spec (o : outcome unit) (w : World) :
  let r := close_quietly o w in
  pending_bytes (snd r) = pending_bytes w
  /\ match ws_close_replies w with
     | [] => r = (Pending, w)
     | rep :: rest =>
         fst r = swallow o rep
         /\ ws_close_replies (snd r) = rest
         /\ trace (snd r) = trace w ++ [EvWsClose 1000 rep]
     end.
Proof.
  unfold close_quietly.
  destruct (ws_close_replies w) as [|rep rest]; cbn; auto.
Qed.

(** The ending of the pump: the calls it makes are a print at most and the
    close; when it is an exit, the close has been attempted last. *)
Lemma tcp_to_ws_ending_spec (o1 : outcome unit) (w1 : World) :
  o1 <> OutOfFuel ->
  let r := tcp_to_ws_ending o1 w1 in
  pending_bytes (snd r) = pending_bytes w1
  /\ exists ending : list event,
       trace (snd r) = trace w1 ++ ending
       /\ Forall tcp_to_ws_ending_event ending
       /\ Forall sends_no_empty_message ending
       /\ (fst r <> Pending ->
           exists (pre : list event) (rep : reply unit) (rest : list (reply unit)),
             ws_close_replies w1 = rep :: rest
             /\ ws_close_replies (snd r) = rest
             /\ ending = pre ++ [EvWsClose 1000 rep]
             /\ Forall (fun ev => ~ is_ws_close ev) pre).
Proof.
  intros Hfuel. unfold tcp_to_ws_ending.
  assert (Hclose : forall (o : outcome unit) (w2 : World) (pre : list event),
    trace w2 = trace w1 ++ pre ->
    pending_bytes w2 = pending_bytes w1 ->
    ws_close_replies w2 = ws_close_replies w1 ->
    Forall tcp_to_ws_ending_event pre ->
    Forall sends_no_empty_message pre ->
    Forall (fun ev => ~ is_ws_close ev) pre ->
    let r := close_quietly o w2 in
    pending_bytes (snd r) = pending_bytes w1
    /\ exists ending : list event,
         trace (snd r) = trace w1 ++ ending
         /\ Forall tcp_to_ws_ending_event ending
         /\ Forall sends_no_empty_message ending
         /\ (fst r <> Pending ->
             exists (pre : list event) (rep : reply unit)
                    (rest : list (reply unit)),
               ws_close_replies w1 = rep :: rest
               /\ ws_close_replies (snd r) = rest
               /\ ending = pre ++ [EvWsClose 1000 rep]
               /\ Forall (fun ev => ~ is_ws_close ev) pre)).
  { intros o w2 pre Htr Hpend Hcl Hev Hsend Hnc.
    destruct (close_quietly_spec o w2) as [Hp Hq]. cbv zeta in *.
    split; [congruence|].
    destruct (ws_close_replies w2) as [|rep rest] eqn:Hreplies.
    - rewrite Hq. cbn [fst snd]. exists pre. repeat split; auto; congruence.
    - destruct Hq as [Ho [Hrest Htr2]].
      exists (pre ++ [EvWsClose 1000 rep]). repeat split.
      + now rewrite Htr2, Htr, app_assoc.
      + apply Forall_app. split; [assumption|]. now repeat constructor.
      + apply Forall_app. split; [assumption|]. now repeat constructor.
      + intros _. exists pre, rep, rest. repeat split; auto; congruence. }
  destruct o1 as [[]|e| |]; [| |cbn [fst snd]|congruence].
  - apply (Hclose _ w1 []); auto. now rewrite app_nil_r.
  - destruct (isinstance e Exception).
    + apply (Hclose _ _ [EvPrint (ErrorForwardingTcpToWs e)]); auto;
        repeat constructor; intros [].
    + apply (Hclose _ w1 []); auto. now rewrite app_nil_r.
  - split; [reflexivity|]. exists []. repeat split; auto.
    + now rewrite app_nil_r.
    + congruence.
Qed.

(** What a run of the loop has read and not had accepted: at most one
    chunk, that of a send that failed or never resolved. *)
Lemma tcp_to_ws_run_lost (consumed : bytes) (sent : list bytes)
    (o : outcome unit) (tr : list event) :
  tcp_to_ws_run consumed sent o tr ->
  exists lost : bytes,
    consumed = List.concat sent ++ lost
    /\ List.length lost <= READ_SIZE
    /\ (lost <> [] ->
        o = Pending \/ exists e, In (EvSendBytes lost (Raise e)) tr).
Proof.
  induction 1 as [ | | | data e Hne Hlen | data Hne Hlen
                 | data consumed sent o tr Hne Hlen Hrun IH].
  - exists []. repeat split; auto using Nat.le_0_l. now intros [].
  - exists []. repeat split; auto using Nat.le_0_l. now intros [].
  - exists []. repeat split; auto using Nat.le_0_l.
  - exists data. repeat split; auto. intros _. right. exists e.
    right. now left.
  - exists data. repeat split; auto.
  - destruct IH as [lost [Hc [Hl Hwhy]]]. exists lost. repeat split; auto.
    + cbn [List.concat]. now rewrite Hc, app_assoc.
    + intros Hlost. destruct (Hwhy Hlost) as [Hp|[e He]]; [now left|].
      right. exists e. right. now right.
Qed.

(** C2.  Every run of the pump is a run of its loop, then its ending.  In
    the loop every read asks for [READ_SIZE] = 4096 bytes and returns at
    most that many; each non-empty chunk is sent at once as one message
    with exactly the bytes read; a zero-length read is the only normal end
    of the loop.  The bytes consumed come off the front of the TCP stream;
    they are the accepted messages, in order, and at most one chunk more,
    that of a send that failed or never resolved: nothing is lost
    otherwise and nothing is sent twice.  The pump goes on as long as the
    environment answers: it is pending only at a read of a starved reader,
    at a send or at the close that nobody answers; and once the loop has
    ended it reports the error, if any, closes the WebSocket and ends as
    that close allows. *)
Theorem tcp_to_ws_relays_stream (w : World) :
  let r := forward_tcp_to_ws the_websocket the_reader w in
  exists (consumed lost : bytes) (o1 : outcome unit) (tr ending : list event),
    trace (snd r) = trace w ++ tr ++ ending
    /\ tcp_to_ws_run consumed (accepted tr) o1 tr
    /\ Forall tcp_to_ws_ending_event ending
    /\ pending_bytes w = consumed ++ pending_bytes (snd r)
    /\ consumed = List.concat (accepted tr) ++ lost
    /\ List.length lost <= READ_SIZE
    /\ (lost <> [] ->
        o1 = Pending \/ exists e, In (EvSendBytes lost (Raise e)) tr)
    /\ (o1 = Returned tt -> List.concat (accepted tr) = consumed)
    /\ (o1 = Pending ->
        fst r = Pending /\ ending = []
        /\ ((lost = [] /\ starved (snd r))
            \/ (lost <> [] /\ ws_send_replies (snd r) = [])))
    /\ (o1 <> Pending ->
        match ws_close_replies w with
        | [] =>
            fst r = Pending
            /\ ending = map EvPrint (tcp_to_ws_report o1)
        | rep :: _ =>
            fst r = swallow (tcp_to_ws_result o1) rep
            /\ ending =
               map EvPrint (tcp_to_ws_report o1) ++ [EvWsClose 1000 rep]
        end).
Proof.
  destruct (@tcp_to_ws_loop_runs (tcp_to_ws_fuel w) w (le_n _))
    as [consumed [sent [tr [Htr [Hrun [Hpend [Hcl [Hwait _]]]]]]]].
  unfold forward_tcp_to_ws. rewrite forward_tcp_to_ws_upto_unfold.
  cbv zeta in *.
  destruct (while_true _ _ w) as [o1 w1]. cbn [fst snd] in *.
  destruct (@tcp_to_ws_ending_spec o1 w1 (tcp_to_ws_run_fuel Hrun))
    as [Hpend' _]. cbv zeta in Hpend'.
  destruct (tcp_to_ws_run_lost Hrun) as [lost [Hc [Hl Hwhy]]].
  pose proof (tcp_to_ws_run_accepted Hrun) as Hacc.
  assert (Hlost : lost = [] <-> consumed = List.concat sent).
  { rewrite Hc. split.
    - intros ->. now rewrite app_nil_r.
    - intros Heq. rewrite <- (app_nil_r (List.concat sent)) in Heq at 2.
      now apply app_inv_head in Heq. }
  assert (Hnormal : o1 = Returned tt -> List.concat sent = consumed).
  { intros Ho. destruct (tcp_to_ws_run_sent Hrun) as [l [Hc' Hl']].
    rewrite Hc', (Hl' Ho). now rewrite app_nil_r. }
  assert (Hclose : forall (o : outcome unit) (w2 : World) (pre : list event),
    trace w2 = trace w1 ++ pre ->
    ws_close_replies w2 = ws_close_replies w ->
    match ws_close_replies w with
    | [] =>
        fst (close_quietly o w2) = Pending
        /\ trace (snd (close_quietly o w2)) = trace w ++ tr ++ pre
    | rep :: _ =>
        fst (close_quietly o w2) = swallow o rep
        /\ trace (snd (close_quietly o w2))
           = trace w ++ tr ++ pre ++ [EvWsClose 1000 rep]
    end).
  { intros o w2 pre Htr2 Hcl2. unfold close_quietly. rewrite Hcl2.
    destruct (ws_close_replies w) as [|rep rest]; cbn [fst snd].
    - split; [reflexivity|]. rewrite Htr2, Htr. now rewrite <- app_assoc.
    - split; [reflexivity|]. world_cbn. rewrite Htr2, Htr.
      now rewrite <- !app_assoc. }
  exists consumed, lost, o1, tr. rewrite Hacc.
  unfold tcp_to_ws_ending, tcp_to_ws_report, tcp_to_ws_result in *.
  destruct o1 as [[]|e| |].
  - specialize (Hclose (Returned tt) w1 [] (eq_sym (app_nil_r _)) Hcl).
    destruct (ws_close_replies w) as [|rep rest];
      destruct Hclose as [Ho Htr'];
      [exists [] | exists [EvWsClose 1000 rep]];
      repeat match goal with |- _ /\ _ => split end;
      auto; try discriminate; try (rewrite Hpend'; exact Hpend);
        repeat constructor.
  - destruct (isinstance e Exception) eqn:He.
    + specialize (Hclose (Returned tt)
                    (log (EvPrint (ErrorForwardingTcpToWs e)) w1)
                    [EvPrint (ErrorForwardingTcpToWs e)] eq_refl Hcl).
      destruct (ws_close_replies w) as [|rep rest];
        destruct Hclose as [Ho Htr'];
        [ exists [EvPrint (ErrorForwardingTcpToWs e)]
        | exists [EvPrint (ErrorForwardingTcpToWs e); EvWsClose 1000 rep] ];
        repeat match goal with |- _ /\ _ => split end;
        auto; try discriminate; try (rewrite Hpend'; exact Hpend);
        repeat constructor.
    + specialize (Hclose (Raised e) w1 [] (eq_sym (app_nil_r _)) Hcl).
      destruct (ws_close_replies w) as [|rep rest];
        destruct Hclose as [Ho Htr'];
        [exists [] | exists [EvWsClose 1000 rep]];
        repeat match goal with |- _ /\ _ => split end;
        auto; try discriminate; try (rewrite Hpend'; exact Hpend);
        repeat constructor.
  - exists []. cbn [fst snd].
    repeat match goal with |- _ /\ _ => split end;
      auto; try discriminate.
    + now rewrite app_nil_r.
    + intros _. split; [reflexivity|]. split; [reflexivity|].
      destruct (Hwait eq_refl) as [[Heq Hs]|[Hne Hs]]; [left | right];
        (split; [|assumption]).
      * now apply Hlost.
      * intros Hl0. apply Hne. now apply Hlost.
    + intros Hp. now destruct Hp.
  - now destruct (tcp_to_ws_run_fuel Hrun).
Qed.

(** C10.  The pump never sends a zero-length message: in every run, each
    [send_bytes] call carries at least one byte. *)
Theorem tcp_to_ws_never_sends_empty_message (w : World) :
  let r := forward_tcp_to_ws the_websocket the_reader w in
  exists tr : list event,
    trace (snd r) = trace w ++ tr /\ Forall sends_no_empty_message tr.
Proof.
  destruct (forward_tcp_to_ws_exits w)
    as [o1 [w1 [consumed [sent [tr [Htr [Hrun [Hpend [Hcl Heq]]]]]]]]].
  cbv zeta. rewrite Heq.
  destruct (@tcp_to_ws_ending_spec o1 w1 (tcp_to_ws_run_fuel Hrun))
    as [_ [ending [Htr' [_ [Hsend _]]]]].
  exists (tr ++ ending). split.
  - now rewrite Htr', Htr, app_assoc.
  - apply Forall_app. split; [|assumption]. exact (tcp_to_ws_run_sends Hrun).
Qed.

(** *** The loop does not look at the replies to [close] *)

Lemma reader_read_close_replies (n : nat) (x : list (reply unit)) (w : World) :
  reader_read the_reader n (set_ws_close_replies x w) =
  (fst (reader_read the_reader n w),
   set_ws_close_replies x (snd (reader_read the_reader n w))).
Proof.
  destruct w as [h ac inbox sd cl cn st bf eo ar out dr wc ts dn cr tk tr].
  unfold reader_read.
  cbn [rd_buffer rd_eof rd_arrivals tcp_state set_ws_close_replies].
  destruct n as [|n]; [reflexivity|].
  destruct bf as [|x0 bf]; [|reflexivity].
  destruct eo; [reflexivity|].
  destruct (wait_for_transport st ar) as [data rest|rest|e rest|];
    try reflexivity.
  destruct (isinstance e Exception); reflexivity.
Qed.

Lemma send_bytes_close_replies (data : bytes) (x : list (reply unit))
    (w : World) :
  send_bytes the_websocket data (set_ws_close_replies x w) =
  (fst (send_bytes the_websocket data w),
   set_ws_close_replies x (snd (send_bytes the_websocket data w))).
Proof.
  destruct w as [h ac inbox sd cl cn st bf eo ar out dr wc ts dn cr tk tr].
  unfold send_bytes, awaiting. cbn [ws_send_replies set_ws_close_replies].
  destruct sd as [|[[]|e] sd]; reflexivity.
Qed.

Lemma tcp_to_ws_iteration_close_replies (x : list (reply unit)) (w : World) :
  tcp_to_ws_iteration the_websocket the_reader (set_ws_close_replies x w) =
  (fst (tcp_to_ws_iteration the_websocket the_reader w),
   set_ws_close_replies x (snd (tcp_to_ws_iteration the_websocket the_reader w))).
Proof.
  rewrite !tcp_to_ws_iteration_unfold, reader_read_close_replies.
  destruct (reader_read the_reader READ_SIZE w) as [[data|e| |] w1];
    cbn [fst snd]; try reflexivity.
  destruct (py_not data); [reflexivity|].
  rewrite send_bytes_close_replies.
  destruct (send_bytes the_websocket data w1) as [[[]|e| |] w2]; reflexivity.
Qed.

Lemma tcp_to_ws_loop_close_replies (x : list (reply unit)) (fuel : nat) :
  forall w : World,
    while_true fuel (tcp_to_ws_iteration the_websocket the_reader)
      (set_ws_close_replies x w) =
    (fst (while_true fuel (tcp_to_ws_iteration the_websocket the_reader) w),
     set_ws_close_replies x
       (snd (while_true fuel (tcp_to_ws_iteration the_websocket the_reader) w))).
Proof.
  induction fuel as [|fuel IH]; intros w; [reflexivity|].
  rewrite !while_true_unfold, tcp_to_ws_iteration_close_replies.
  destruct (tcp_to_ws_iteration the_websocket the_reader w) as [[[]|e| |] w1];
    cbn [fst snd]; auto.
Qed.

(** With a reply to [close] at hand, the pump ends as [swallow] says. *)
Lemma tcp_to_ws_ending_outcome (o1 : outcome unit) (w1 : World)
    (rep : reply unit) (rest : list (reply unit)) :
  fst (tcp_to_ws_ending o1 (set_ws_close_replies (rep :: rest) w1)) =
  match o1 with
  | Returned _ => swallow (Returned tt) rep
  | Raised e =>
      if isinstance e Exception then swallow (Returned tt) rep
      else swallow (Raised e) rep
  | Pending => Pending
  | OutOfFuel => OutOfFuel
  end.
Proof.
  unfold tcp_to_ws_ending, close_quietly.
  destruct o1 as [[]|e| |]; try reflexivity.
  now destruct (isinstance e Exception).
Qed.

(** C9.  On every way out of the pump (return or raise, so after end of
    stream, after an error and after cancellation alike) the last call made
    is the one attempt to close the WebSocket; and an [Exception] raised by
    that attempt changes nothing: the pump ends as it does when the close
    succeeds. *)
Theorem tcp_to_ws_exit_closes_websocket (w : World) :
  (forall (o : outcome unit) (w' : World),
     forward_tcp_to_ws the_websocket the_reader w = (o, w') ->
     o <> Pending ->
     exists (tr : list event) (rep : reply unit) (rest : list (reply unit)),
       ws_close_replies w = rep :: rest
       /\ ws_close_replies w' = rest
       /\ trace w' = trace w ++ tr ++ [EvWsClose 1000 rep]
       /\ Forall (fun ev => ~ is_ws_close ev) tr)
  /\ (forall (e : exn) (rest : list (reply unit)),
        isinstance e Exception = true ->
        fst (forward_tcp_to_ws the_websocket the_reader
               (set_ws_close_replies (Raise e :: rest) w)) =
        fst (forward_tcp_to_ws the_websocket the_reader
               (set_ws_close_replies (Ok tt :: rest) w))).
Proof.
  split.
  - intros o w' Hrun Hexit.
    destruct (forward_tcp_to_ws_exits w)
      as [o1 [w1 [consumed [sent [tr [Htr [Hloop [Hpend [Hcl Heq]]]]]]]]].
    rewrite Hrun in Heq.
    destruct (@tcp_to_ws_ending_spec o1 w1 (tcp_to_ws_run_fuel Hloop))
      as [_ [ending [Htr' [_ [_ Hclose]]]]].
    cbv zeta in *. rewrite <- Heq in *. cbn [fst snd] in *.
    destruct (Hclose Hexit) as [pre [rep [rest [Hreplies [Hrest [Hend Hnc]]]]]].
    exists (tr ++ pre), rep, rest. repeat split.
    + congruence.
    + assumption.
    + rewrite Htr', Htr, Hend. now rewrite <- !app_assoc.
    + apply Forall_app. split; [|assumption].
      exact (tcp_to_ws_run_no_close Hloop).
  - intros e rest He.
    unfold forward_tcp_to_ws.
    rewrite !forward_tcp_to_ws_upto_unfold. cbv zeta.
    change (tcp_to_ws_fuel (set_ws_close_replies (Raise e :: rest) w))
      with (tcp_to_ws_fuel w).
    change (tcp_to_ws_fuel (set_ws_close_replies (Ok tt :: rest) w))
      with (tcp_to_ws_fuel w).
    rewrite !tcp_to_ws_loop_close_replies. cbn [fst snd].
    rewrite !tcp_to_ws_ending_outcome.
    destruct (fst (while_true _ _ w)) as [[]|e1| |]; cbn [swallow];
      rewrite ?He; reflexivity.
Qed.

(** ** Errors do not leave the pumps *)

Lemma swallow_exception (o : outcome unit) (rep : reply unit) (e : exn) :
  isinstance e Exception = true ->
  o <> Raised e -> swallow o rep <> Raised e.
Proof.
  intros He Ho. destruct rep as [[]|e']; cbn [swallow]; auto.
  destruct (isinstance e' Exception) eqn:He'; auto.
  intros H. injection H as ->. congruence.
Qed.

Lemma tcp_to_ws_ending_exception (o1 : outcome unit) (w1 : World) (e : exn) :
  isinstance e Exception = true ->
  fst (tcp_to_ws_ending o1 w1) <> Raised e.
Proof.
  intros He. unfold tcp_to_ws_ending, close_quietly.
  destruct o1 as [[]|e1| |]; try discriminate.
  - destruct (ws_close_replies w1); [discriminate|].
    apply swallow_exception; [assumption | discriminate].
  - destruct (isinstance e1 Exception) eqn:He1; cbn [ws_close_replies log];
      (destruct (ws_close_replies w1); [discriminate|]);
      apply swallow_exception; try assumption; try discriminate.
    intros H. injection H as ->. congruence.
Qed.

(** C6.  No error crosses the boundary of a pump: neither pump ever ends
    by raising an [Exception].  When the forwarding loop fails with one,
    [forward_ws_to_tcp] returns, and [forward_tcp_to_ws] goes on to close
    the WebSocket and returns as well, unless that close never resolves or
    is itself interrupted by something that is not an [Exception]. *)
Theorem pump_errors_do_not_escape (w : World) (e : exn) :
  isinstance e Exception = true ->
  fst (forward_ws_to_tcp the_websocket the_writer w) <> Raised e
  /\ fst (forward_tcp_to_ws the_websocket the_reader w) <> Raised e
  /\ (fst (while_true (ws_to_tcp_fuel w)
             (ws_to_tcp_iteration the_websocket the_writer) w) = Raised e ->
      fst (forward_ws_to_tcp the_websocket the_writer w) = Returned tt)
  /\ (fst (while_true (tcp_to_ws_fuel w)
             (tcp_to_ws_iteration the_websocket the_reader) w) = Raised e ->
      fst (forward_tcp_to_ws the_websocket the_reader w) =
      match ws_close_replies w with
      | [] => Pending
      | rep :: _ => swallow (Returned tt) rep
      end).
Proof.
  intros He. repeat split.
  - destruct (forward_ws_to_tcp_exits w) as [_ [[H|[H|[e' [H He']]]] _]];
      rewrite H; try discriminate.
    intros Heq. injection Heq as ->. congruence.
  - destruct (forward_tcp_to_ws_exits w)
      as [o1 [w1 [consumed [sent [tr [_ [_ [_ [_ Heq]]]]]]]]].
    rewrite Heq. now apply tcp_to_ws_ending_exception.
  - intros Hloop. unfold forward_ws_to_tcp.
    rewrite forward_ws_to_tcp_upto_unfold.
    destruct (while_true _ _ w) as [o w1]. cbn [fst] in Hloop. subst o.
    destruct (isinstance_any e _); [reflexivity|]. now rewrite He.
  - intros Hloop. unfold forward_tcp_to_ws.
    rewrite forward_tcp_to_ws_upto_unfold. cbv zeta.
    destruct (@tcp_to_ws_loop_runs (tcp_to_ws_fuel w) w (le_n _))
      as [_ [_ [_ [_ [_ [_ [Hcl _]]]]]]].
    cbv zeta in Hcl.
    destruct (while_true _ _ w) as [o w1]. cbn [fst snd] in *. subst o.
    unfold tcp_to_ws_ending, close_quietly. rewrite He.
    cbn [ws_close_replies log]. rewrite Hcl.
    now destruct (ws_close_replies w).
Qed.

(** ** The coordinator *)

(** *** Negotiation *)

Lemma websockify_unfold (port : Z) (w : World) :
  websockify the_websocket port w =
  let selected_subprotocol :=
    negotiate (headers_lookup (ws_headers w) "sec-websocket-protocol" "") in
  match accept the_websocket selected_subprotocol w with
  | (Returned _, w1) =>
      websockify_accepted the_websocket port selected_subprotocol w1
  | (Raised e, w1) => (Raised e, w1)
  | (Pending, w1) => (Pending, w1)
  | (OutOfFuel, w1) => (OutOfFuel, w1)
  end.
Proof. reflexivity. Qed.

Lemma select_subprotocol_spec (client_subprotocols : list string) :
  select_subprotocol client_subprotocols None =
  if existsb (fun proto => String.eqb (strip proto) "binary") client_subprotocols
  then Some "binary" else None.
Proof.
  induction client_subprotocols as [|proto rest IH]; cbn [select_subprotocol existsb].
  - reflexivity.
  - destruct (String.eqb (strip proto) "binary"); [reflexivity | exact IH].
Qed.

(** C5.  Negotiation splits the header value on commas and strips each
    candidate; it selects [binary] exactly when some candidate is [binary],
    and nothing otherwise.  [json, binary] selects [binary]; [json] and the
    empty value select nothing.  The selection is what [accept] is called
    with. *)
Theorem negotiation_selects_binary_iff_offered (header : string) :
  (negotiate header = Some "binary" <->
   exists candidate : string,
     In candidate (split "," header) /\ strip candidate = "binary")
  /\ (negotiate header = None <->
      forall candidate : string,
        In candidate (split "," header) -> strip candidate <> "binary")
  /\ negotiate "json, binary" = Some "binary"
  /\ negotiate "json" = None
  /\ negotiate "" = None
  /\ forall (w : World) (port : Z) (rep : reply unit)
            (rest : list (reply unit)),
       headers_lookup (ws_headers w) "sec-websocket-protocol" "" = header ->
       ws_accept_replies w = rep :: rest ->
       exists tr : list event,
         trace (snd (websockify the_websocket port w)) =
         trace w ++ EvAccept (negotiate header) rep :: tr.
Proof.
  assert (Hoffered : forall candidate : string,
            In candidate (split "," header) -> strip candidate = "binary" ->
            negotiate header = Some "binary").
  { intros c Hin Hc. unfold negotiate. rewrite select_subprotocol_spec.
    assert (E : existsb (fun proto => String.eqb (strip proto) "binary")
                  (split "," header) = true).
    { apply existsb_exists. exists c. split; [assumption|].
      now apply String.eqb_eq. }
    now rewrite E. }
  assert (Hchoice : negotiate header = None
                    \/ exists candidate : string,
                         In candidate (split "," header)
                         /\ strip candidate = "binary").
  { unfold negotiate. rewrite select_subprotocol_spec.
    destruct (existsb _ _) eqn:E; [right | now left].
    apply existsb_exists in E. destruct E as [c [Hin Hc]].
    exists c. split; [assumption|]. now apply String.eqb_eq. }
  split; [|split; [|repeat split]].
  - split.
    + intros Hsel. destruct Hchoice as [Hnone|Hsome]; [congruence | assumption].
    + intros [c [Hin Hc]]. eauto.
  - split.
    + intros Hnone c Hin Hc. rewrite (Hoffered c Hin Hc) in Hnone. discriminate.
    + intros Hall. destruct Hchoice as [Hnone|[c [Hin Hc]]]; [assumption|].
      now destruct (Hall c Hin).
  - intros w port rep rest Hh Hac.
    rewrite (websockify_unfold port w), Hh.
    unfold accept, awaiting. rewrite Hac.
    destruct rep as [[]|e]; cbn [snd].
    + match goal with |- context [websockify_accepted _ _ _ ?w0] =>
        destruct (@grows_websockify_accepted the_websocket port
                    (negotiate header) w0) as [tr [Htr _]]
      end.
      rewrite Htr. cbn [trace log set_ws_accept_replies].
      rewrite <- app_assoc. cbn [app]. eauto.
    + exists []. reflexivity.
Qed.

(** *** A failed connect *)

Lemma websockify_accepted_connect_failure
    (w : World) (port : Z) (selected_subprotocol : option string) (e : exn)
    (rep : reply unit) (connects closes : list (reply unit)) :
  tcp_connect_replies w = Raise e :: connects ->
  isinstance e OSError = true ->
  ws_close_replies w = rep :: closes ->
  websockify_accepted the_websocket port selected_subprotocol w =
  (match rep with
   | Ok _ => Returned tt
   | Raise x => Raised x
   end,
   log (EvWsClose 1011 rep)
     (set_ws_close_replies closes
        (log (EvPrint (CouldNotConnect port e))
           (log (EvOpenConnection "localhost" port (Raise e))
              (set_tcp_connect_replies connects
                 (log (EvPrint (ClientConnected port selected_subprotocol))
                    w)))))).
Proof.
  intros Hcn He Hcl.
  destruct w as [h ac inbox sd cl cn st bf eo ar out dr wc ts dn cr tk tr].
  cbn [tcp_connect_replies ws_close_replies] in Hcn, Hcl. subst cn cl.
  unfold websockify_accepted, try_except, open_connection, ws_close, awaiting,
    print.
  run_bind.
  cbn [tcp_connect_replies ws_close_replies log set_tcp_connect_replies
       set_ws_close_replies dispatch catches handler].
  rewrite He. run_bind.
  cbn [tcp_connect_replies ws_close_replies log set_tcp_connect_replies
       set_ws_close_replies].
  destruct rep as [[]|x]; reflexivity.
Qed.

(** C3.  When the connect fails with an [OSError], the coordinator makes
    exactly these calls after the accept: the connect, and one close of the
    WebSocket, with code 1011.  It creates no task, so neither pump starts,
    and nothing moves in either direction.  It returns as soon as the close
    resolves. *)
Theorem connect_failure_closes_with_1011
    (w : World) (port : Z) (e : exn) (rep : reply unit)
    (accepts connects closes : list (reply unit)) :
  ws_accept_replies w = Ok tt :: accepts ->
  tcp_connect_replies w = Raise e :: connects ->
  isinstance e OSError = true ->
  ws_close_replies w = rep :: closes ->
  let selected_subprotocol :=
    negotiate (headers_lookup (ws_headers w) "sec-websocket-protocol" "") in
  let r := websockify the_websocket port w in
  fst r = match rep with
          | Ok _ => Returned tt
          | Raise x => Raised x
          end
  /\ trace (snd r) =
     trace w
     ++ [EvAccept selected_subprotocol (Ok tt);
         EvPrint (ClientConnected port selected_subprotocol);
         EvOpenConnection "localhost" port (Raise e);
         EvPrint (CouldNotConnect port e);
         EvWsClose 1011 rep]
  /\ loop_tasks (snd r) = loop_tasks w
  /\ wr_out (snd r) = wr_out w
  /\ ws_inbox (snd r) = ws_inbox w
  /\ pending_bytes (snd r) = pending_bytes w
  /\ ws_send_replies (snd r) = ws_send_replies w.
Proof.
  intros Hac Hcn He Hcl sel r. subst r.
  rewrite websockify_unfold. fold sel. cbv zeta.
  unfold accept, awaiting. rewrite Hac.
  rewrite (@websockify_accepted_connect_failure
             (log (EvAccept sel (Ok tt)) (set_ws_accept_replies accepts w))
             port sel e rep connects closes Hcn He Hcl).
  cbn [fst snd]. repeat split.
  cbn [trace log set_ws_close_replies set_tcp_connect_replies
       set_ws_accept_replies].
  now rewrite <- !app_assoc.
Qed.

(** *** Waiting for the first pump *)

Lemma is_done_app (l l' : list task) (t : task) :
  is_done (l ++ l') t = is_done l t || is_done l' t.
Proof. unfold is_done. apply existsb_app. Qed.

Lemma sleep_until_satisfied (rw : return_when) (fs done : list task)
    (ticks : list tick) :
  wait_satisfied rw fs done = true ->
  sleep_until rw fs done ticks = Woken done ticks.
Proof. intros H. destruct ticks as [|[ts|] ticks]; cbn; now rewrite H. Qed.

Lemma sleep_until_unsatisfied (rw : return_when) (fs done ts : list task)
    (ticks : list tick) :
  wait_satisfied rw fs done = false ->
  sleep_until rw fs done (Finishes ts :: ticks) =
  sleep_until rw fs (done ++ ts) ticks.
Proof. intros H. cbn. now rewrite H. Qed.

Section FirstCompleted.

Variables t0 t1 : task.

Lemma both_running_concat (quiet : list (list task)) :
  both_running t0 t1 quiet = true ->
  is_done (List.concat quiet) t0 = false
  /\ is_done (List.concat quiet) t1 = false.
Proof.
  induction quiet as [|ts quiet IH]; cbn [both_running forallb List.concat].
  - now split.
  - intros H. apply andb_prop in H. destruct H as [H Hq].
    apply andb_prop in H. destruct H as [H0 H1].
    apply negb_true_iff in H0, H1.
    destruct (IH Hq) as [IH0 IH1].
    now rewrite !is_done_app, H0, H1, IH0, IH1.
Qed.

(** The waiter wakes at the first iteration in which one of the two tasks
    finishes, and not before. *)
Lemma sleep_until_first_completed (quiet : list (list task))
    (ts : list task) (later : list tick) :
  forall done : list task,
    is_done done t0 = false ->
    is_done done t1 = false ->
    both_running t0 t1 quiet = true ->
    is_done ts t0 || is_done ts t1 = true ->
    sleep_until FIRST_COMPLETED [t0; t1] done
      (map Finishes quiet ++ Finishes ts :: later) =
    Woken (done ++ List.concat quiet ++ ts) later.
Proof.
  induction quiet as [|q quiet IH]; intros done H0 H1 Hq Hts.
  - cbn [map app List.concat].
    rewrite sleep_until_unsatisfied
      by (cbn; now rewrite H0, H1).
    apply sleep_until_satisfied. cbn.
    rewrite !is_done_app, H0, H1. cbn. now rewrite orb_false_r.
  - cbn [map app List.concat].
    cbn [both_running forallb] in Hq. apply andb_prop in Hq.
    destruct Hq as [Hq0 Hq]. apply andb_prop in Hq0.
    destruct Hq0 as [Hq0 Hq1]. apply negb_true_iff in Hq0, Hq1.
    rewrite sleep_until_unsatisfied
      by (cbn; now rewrite H0, H1).
    rewrite IH; auto.
    + now rewrite <- !app_assoc.
    + now rewrite is_done_app, H0, Hq0.
    + now rewrite is_done_app, H1, Hq1.
Qed.

End FirstCompleted.

(** *** A session that connects *)

Section Forwarding.

Variables (w : World) (port : Z).
Variables (accepts connects waits : list (reply unit)) (rep : reply unit).
Variables (quiet : list (list task)) (ts : list task) (later : list tick).

Let task_ws_to_tcp : task := List.length (loop_tasks w).
Let task_tcp_to_ws : task := S (List.length (loop_tasks w)).

(** The WebSocket is accepted and the connect succeeds. *)
Hypothesis accepted : ws_accept_replies w = Ok tt :: accepts.
Hypothesis connected : tcp_connect_replies w = Ok tt :: connects.

(** The event loop runs the iterations [quiet], in which neither pump
    finishes, then one in which the tasks [ts] finish, one of the pumps
    among them, then the iterations [later]. *)
Hypothesis not_done_yet :
  is_done (loop_done w) task_ws_to_tcp = false
  /\ is_done (loop_done w) task_tcp_to_ws = false.
Hypothesis schedule :
  loop_ticks w = map Finishes quiet ++ Finishes ts :: later.
Hypothesis still_running :
  both_running task_ws_to_tcp task_tcp_to_ws quiet = true.
Hypothesis one_finishes :
  is_done ts task_ws_to_tcp || is_done ts task_tcp_to_ws = true.

(** The wait for the close of the connection resolves, with an error
    perhaps. *)
Hypothesis close_waited : wr_wait_closed_replies w = rep :: waits.
Hypothesis close_not_interrupted :
  match rep with
  | Ok _ => True
  | Raise e => isinstance e Exception = true
  end.

(** C4.  Once connected, the coordinator creates both pump tasks before it
    waits; its wait ends with the first iteration of the event loop in
    which a pump finishes; it then requests the cancellation of the pump
    that has not finished, and goes on without waiting for it: from the
    event loop it takes nothing more, only the close of the connection,
    whose error it discards.  It then reports the end and returns. *)
Theorem first_completion_ends_session :
  let selected_subprotocol :=
    negotiate (headers_lookup (ws_headers w) "sec-websocket-protocol" "") in
  let done := filter (is_done ts) [task_ws_to_tcp; task_tcp_to_ws] in
  let pending :=
    filter (fun t => negb (is_done ts t)) [task_ws_to_tcp; task_tcp_to_ws] in
  let r := websockify the_websocket port w in
  fst r = Returned tt
  /\ trace (snd r) =
     trace w
     ++ [EvAccept selected_subprotocol (Ok tt);
         EvPrint (ClientConnected port selected_subprotocol);
         EvOpenConnection "localhost" port (Ok tt);
         EvCreateTask (co_forward_ws_to_tcp the_websocket the_writer)
           task_ws_to_tcp;
         EvCreateTask (co_forward_tcp_to_ws the_websocket the_reader)
           task_tcp_to_ws;
         EvWait [task_ws_to_tcp; task_tcp_to_ws] FIRST_COMPLETED done pending]
     ++ map EvCancel pending
     ++ [EvWaitClosed rep; EvPrint (ConnectionClosed port)]
  /\ done <> []
  /\ loop_ticks (snd r) = later
  /\ loop_cancel_requested (snd r) = loop_cancel_requested w ++ pending.
Proof.
  intros sel done pending r. subst r.
  rewrite websockify_unfold. fold sel. cbv zeta.
  destruct not_done_yet as [Hnd0 Hnd1].
  destruct (both_running_concat _ _ _ still_running) as [Hq0 Hq1].
  pose proof (@sleep_until_first_completed task_ws_to_tcp task_tcp_to_ws
                quiet ts later (loop_done w) Hnd0 Hnd1 still_running
                one_finishes) as Hwake.
  assert (Hd0 : is_done (loop_done w ++ List.concat quiet ++ ts) task_ws_to_tcp
                = is_done ts task_ws_to_tcp)
    by now rewrite !is_done_app, Hnd0, Hq0.
  assert (Hd1 : is_done (loop_done w ++ List.concat quiet ++ ts) task_tcp_to_ws
                = is_done ts task_tcp_to_ws)
    by now rewrite !is_done_app, Hnd1, Hq1.
  subst done pending. revert Hwake Hd0 Hd1 one_finishes.
  subst task_ws_to_tcp task_tcp_to_ws.
  destruct w as [h ac inbox sd cl cn st bf eo ar out dr wc tasks dn cr tk tr].
  cbn [ws_accept_replies tcp_connect_replies loop_ticks loop_done loop_tasks
       wr_wait_closed_replies] in *.
  subst ac cn tk wc. intros Hwake Hd0 Hd1 Hone.
  unfold accept, awaiting. world_cbn.
  unfold websockify_accepted, try_except, open_connection, awaiting, print.
  run_bind. world_cbn.
  unfold create_task. world_cbn.
  rewrite length_app, Nat.add_1_r.
  unfold asyncio_wait. world_cbn.
  rewrite Hwake. cbn [filter]. rewrite Hd0, Hd1.
  destruct (is_done ts (List.length tasks)) eqn:E0;
    destruct (is_done ts (S (List.length tasks))) eqn:E1;
    try discriminate Hone;
    cbn [negb for_each]; run_bind; unfold task_cancel; world_cbn;
    rewrite ?Hd0, ?Hd1;
    unfold writer_wait_closed, awaiting; world_cbn;
    (destruct rep as [[]|e];
     [|cbn [dispatch catches handler]; rewrite close_not_interrupted]);
    cbn [fst snd map app]; world_cbn;
    repeat split; try discriminate;
    rewrite <- ?app_assoc; cbn [app]; rewrite ?app_nil_r; reflexivity.
Qed.

End Forwarding.

(** ** The theorems at work *)

(** C1 at [world_clean_session]: two messages, then a clean close. *)
Lemma ws_to_tcp_relays_messages_in_order_witness :
  (Forall (fun m => m <> []) [b "ab"; b "c"]
   /\ ws_inbox world_clean_session =
      map (@Ok bytes) [b "ab"; b "c"] ++ [Raise WebSocketDisconnect]
   /\ wr_drain_replies world_clean_session = repeat (Ok tt) 2 ++ []
   /\ tcp_state world_clean_session = Established)
  /\ exists w' : World,
       forward_ws_to_tcp the_websocket the_writer world_clean_session
       = (Returned tt, w')
       /\ wr_out w' = wr_out world_clean_session ++ List.concat [b "ab"; b "c"]
       /\ trace w' =
          trace world_clean_session ++ relayed_to_tcp [b "ab"; b "c"]
          ++ [EvReceiveBytes (Raise WebSocketDisconnect);
              EvIsClosing false; EvClose].
Proof.
  split.
  - repeat split; repeat constructor; discriminate.
  - apply (@ws_to_tcp_relays_messages_in_order world_clean_session
             [b "ab"; b "c"] [] []);
      [repeat constructor; discriminate | reflexivity | reflexivity | reflexivity].
Defined.

(** C8 at [world_empty_message]: the empty message is the second one. *)
Lemma empty_message_ends_pump_like_clean_close_witness :
  let r := forward_ws_to_tcp the_websocket the_writer world_empty_message in
  fst r = Returned tt
  /\ wr_out (snd r) = b "ab"
  /\ trace (snd r) =
     [EvReceiveBytes (Ok (b "ab")); EvWrite (b "ab") (Ok tt); EvDrain (Ok tt);
      EvReceiveBytes (Ok []); EvIsClosing false; EvClose]
  /\ forward_ws_to_tcp the_websocket the_writer
       (set_ws_inbox
          [Ok (b "ab"); Raise WebSocketDisconnect; Ok (b "x")]
          world_empty_message)
     = (Returned tt,
        closed_by_pump
          (log (EvReceiveBytes (Raise WebSocketDisconnect))
             (ws_to_tcp_world world_empty_message [Ok (b "x")] (b "ab") []
                Established
                [EvReceiveBytes (Ok (b "ab")); EvWrite (b "ab") (Ok tt);
                 EvDrain (Ok tt)]))).
Proof.
  destruct (@empty_message_ends_pump_like_clean_close world_empty_message
              [b "ab"] [Ok (b "x")] [])
    as [Hrun [Hclose [Hout Htr]]].
  - repeat constructor. discriminate.
  - reflexivity.
  - reflexivity.
  - discriminate.
  - cbv zeta. rewrite Hrun. cbn [fst snd].
    split; [reflexivity|]. split; [exact Hout|]. split; [exact Htr|].
    exact Hclose.
Defined.

(** C7, as stated, fails.  The client disconnects while the transport is
    not closing; the pump exits, and the transport is not half-closed but
    closing: the data the peer has in flight is no longer delivered, the
    reader is at end of stream.  A half-closed transport would deliver
    it. *)
Lemma ws_to_tcp_exit_is_not_a_half_close :
  let r := forward_ws_to_tcp the_websocket the_writer world_with_data_in_flight in
  transport_is_closing (tcp_state world_with_data_in_flight) = false
  /\ fst r = Returned tt
  /\ ~ half_closed (snd r)
  /\ tcp_state (snd r) = Closing
  /\ pending_bytes (snd r) = b "late"
  /\ fst (reader_read the_reader READ_SIZE (snd r)) = Returned []
  /\ fst (reader_read the_reader READ_SIZE
            (set_tcp_state WriteShut world_with_data_in_flight))
     = Returned (b "late").
Proof.
  cbv zeta. repeat split; try (vm_compute; reflexivity).
  unfold half_closed. vm_compute. discriminate.
Qed.

(** C7 as the code has it, at the same world: the pump returns, having
    closed the transport, which was not closing at its [finally] block. *)
Lemma ws_to_tcp_exit_closes_transport_witness :
  let r :=
    forward_ws_to_tcp the_websocket the_writer world_with_data_in_flight in
  tcp_state (snd r) = Closing
  /\ exists (w1 : World) (tr : list event),
       Forall ws_to_tcp_try_event tr
       /\ trace w1 = trace world_with_data_in_flight ++ tr
       /\ snd r = closed_by_pump w1
       /\ trace (snd r) =
          trace world_with_data_in_flight ++ tr
          ++ cleanup_events (tcp_state w1).
Proof.
  destruct (@ws_to_tcp_exit_closes_transport world_with_data_in_flight
              (snd (forward_ws_to_tcp the_websocket the_writer
                      world_with_data_in_flight))
              (Returned tt))
    as [Hst [w1 [tr [Hev [Htr1 [Hw [Htr _]]]]]]].
  - reflexivity.
  - discriminate.
  - cbv zeta. split; [exact Hst|]. exists w1, tr. now repeat split.
Defined.

(** The pump at [world_peer_gone]: the bytes are dropped, the failed flush
    is reported, and the transport, which has closed itself, is not closed
    a second time. *)
Example ws_to_tcp_peer_gone :
  let r := forward_ws_to_tcp the_websocket the_writer world_peer_gone in
  fst r = Returned tt
  /\ wr_out (snd r) = []
  /\ trace (snd r) =
     [EvReceiveBytes (Ok (b "x")); EvWrite (b "x") (Ok tt);
      EvDrain (Raise ConnectionResetError);
      EvPrint (ErrorForwardingWsToTcp ConnectionResetError);
      EvIsClosing true].
Proof. vm_compute. repeat split; reflexivity. Qed.

(** C6 at [world_failing], for [RuntimeError]. *)
Lemma pump_errors_do_not_escape_witness :
  isinstance RuntimeError Exception = true
  /\ fst (forward_ws_to_tcp the_websocket the_writer world_failing)
     <> Raised RuntimeError
  /\ fst (forward_tcp_to_ws the_websocket the_reader world_failing)
     <> Raised RuntimeError
  /\ (fst (while_true (ws_to_tcp_fuel world_failing)
             (ws_to_tcp_iteration the_websocket the_writer) world_failing)
      = Raised RuntimeError ->
      fst (forward_ws_to_tcp the_websocket the_writer world_failing)
      = Returned tt)
  /\ (fst (while_true (tcp_to_ws_fuel world_failing)
             (tcp_to_ws_iteration the_websocket the_reader) world_failing)
      = Raised RuntimeError ->
      fst (forward_tcp_to_ws the_websocket the_reader world_failing) =
      match ws_close_replies world_failing with
      | [] => Pending
      | rep :: _ => swallow (Returned tt) rep
      end).
Proof.
  split.
  - reflexivity.
  - apply (@pump_errors_do_not_escape world_failing RuntimeError). reflexivity.
Defined.

(** C3 at [world_refused]: the connection is refused. *)
Lemma connect_failure_closes_with_1011_witness :
  (ws_accept_replies world_refused = Ok tt :: []
   /\ tcp_connect_replies world_refused = Raise ConnectionRefusedError :: []
   /\ isinstance ConnectionRefusedError OSError = true
   /\ ws_close_replies world_refused = Ok tt :: [])
  /\ (let r := websockify the_websocket 5900 world_refused in
      fst r = Returned tt
      /\ trace (snd r) =
         trace world_refused
         ++ [EvAccept None (Ok tt);
             EvPrint (ClientConnected 5900 None);
             EvOpenConnection "localhost" 5900 (Raise ConnectionRefusedError);
             EvPrint (CouldNotConnect 5900 ConnectionRefusedError);
             EvWsClose 1011 (Ok tt)]
      /\ loop_tasks (snd r) = loop_tasks world_refused
      /\ wr_out (snd r) = wr_out world_refused
      /\ ws_inbox (snd r) = ws_inbox world_refused
      /\ pending_bytes (snd r) = pending_bytes world_refused
      /\ ws_send_replies (snd r) = ws_send_replies world_refused).
Proof.
  split.
  - repeat split.
  - apply (@connect_failure_closes_with_1011 world_refused 5900
             ConnectionRefusedError (Ok tt) [] [] []); reflexivity.
Defined.

(** C4 at [world_server_closes]: [forward_tcp_to_ws] finishes first, the
    other pump is cancelled, and the error of [wait_closed] is discarded. *)
Lemma first_completion_ends_session_witness :
  (ws_accept_replies world_server_closes = Ok tt :: []
   /\ tcp_connect_replies world_server_closes = Ok tt :: []
   /\ (is_done (loop_done world_server_closes) 0 = false
       /\ is_done (loop_done world_server_closes) 1 = false)
   /\ loop_ticks world_server_closes =
      map Finishes [[]] ++ Finishes [1] :: [Finishes [0]]
   /\ both_running 0 1 [[]] = true
   /\ is_done [1] 0 || is_done [1] 1 = true
   /\ wr_wait_closed_replies world_server_closes
      = Raise ConnectionResetError :: []
   /\ isinstance ConnectionResetError Exception = true)
  /\ (let r := websockify the_websocket 5900 world_server_closes in
      fst r = Returned tt
      /\ trace (snd r) =
         trace world_server_closes
         ++ [EvAccept None (Ok tt);
             EvPrint (ClientConnected 5900 None);
             EvOpenConnection "localhost" 5900 (Ok tt);
             EvCreateTask (co_forward_ws_to_tcp the_websocket the_writer) 0;
             EvCreateTask (co_forward_tcp_to_ws the_websocket the_reader) 1;
             EvWait [0; 1] FIRST_COMPLETED [1] [0]]
         ++ map EvCancel [0]
         ++ [EvWaitClosed (Raise ConnectionResetError);
             EvPrint (ConnectionClosed 5900)]
      /\ [1] <> []
      /\ loop_ticks (snd r) = [Finishes [0]]
      /\ loop_cancel_requested (snd r) =
         loop_cancel_requested world_server_closes ++ [0]).
Proof.
  split.
  - repeat split.
  - apply (@first_completion_ends_session world_server_closes 5900 [] [] []
             (Raise ConnectionResetError) [[]] [1] [Finishes [0]]);
      repeat split.
Defined.

(** C5 at [world_offers_binary]. *)
Lemma negotiation_selects_binary_iff_offered_witness :
  (exists candidate : string,
     In candidate (split "," "json, binary") /\ strip candidate = "binary")
  /\ negotiate "json, binary" = Some "binary"
  /\ (headers_lookup (ws_headers world_offers_binary)
        "sec-websocket-protocol" "" = "json, binary"
      /\ ws_accept_replies world_offers_binary = Ok tt :: [])
  /\ exists tr : list event,
       trace (snd (websockify the_websocket 5900 world_offers_binary)) =
       trace world_offers_binary
       ++ EvAccept (negotiate "json, binary") (Ok tt) :: tr.
Proof.
  destruct (negotiation_selects_binary_iff_offered "json, binary")
    as [Hiff [_ [Hbinary [_ [_ Haccept]]]]].
  split; [|split; [|split]].
  - apply Hiff. exact Hbinary.
  - exact Hbinary.
  - split; reflexivity.
  - apply (Haccept world_offers_binary 5900%Z (Ok tt) []); reflexivity.
Defined.

(** C9 at [world_stream]: the close fails with a [RuntimeError] and the pump
    returns all the same. *)
Lemma tcp_to_ws_exit_closes_websocket_witness :
  ((forward_tcp_to_ws the_websocket the_reader world_stream
    = (Returned tt,
       snd (forward_tcp_to_ws the_websocket the_reader world_stream))
    /\ Returned tt <> (Pending : outcome unit))
   /\ exists (tr : list event) (rep : reply unit) (rest : list (reply unit)),
        ws_close_replies world_stream = rep :: rest
        /\ ws_close_replies
             (snd (forward_tcp_to_ws the_websocket the_reader world_stream))
           = rest
        /\ trace (snd (forward_tcp_to_ws the_websocket the_reader world_stream))
           = trace world_stream ++ tr ++ [EvWsClose 1000 rep]
        /\ Forall (fun ev => ~ is_ws_close ev) tr)
  /\ isinstance RuntimeError Exception = true
  /\ fst (forward_tcp_to_ws the_websocket the_reader
            (set_ws_close_replies (Raise RuntimeError :: []) world_stream)) =
     fst (forward_tcp_to_ws the_websocket the_reader
            (set_ws_close_replies (Ok tt :: []) world_stream)).
Proof.
  destruct (tcp_to_ws_exit_closes_websocket world_stream) as [Hexit Hswallow].
  split; [split|split].
  - split; [vm_compute; reflexivity | discriminate].
  - apply (Hexit (Returned tt)
             (snd (forward_tcp_to_ws the_websocket the_reader world_stream)));
      [vm_compute; reflexivity | discriminate].
  - reflexivity.
  - apply Hswallow. reflexivity.
Defined.

(** Sample runs of [forward_tcp_to_ws]. *)

Example tcp_to_ws_relays_two_segments :
  let r := forward_tcp_to_ws the_websocket the_reader world_stream in
  fst r = Returned tt
  /\ trace (snd r) =
     [EvRead READ_SIZE (Ok (b "abc")); EvSendBytes (b "abc") (Ok tt);
      EvRead READ_SIZE (Ok (b "de")); EvSendBytes (b "de") (Ok tt);
      EvRead READ_SIZE (Ok []); EvWsClose 1000 (Raise RuntimeError)].
Proof. vm_compute. split; reflexivity. Qed.

(** A segment longer than a read is relayed as several messages. *)
Example tcp_to_ws_splits_long_segment :
  let w :=
    set_ws_close_replies [Ok tt]
      (set_ws_send_replies [Ok tt; Ok tt]
         (set_reader [] false [Feed (repeat x00 5000); FeedEof] quiet)) in
  let r := forward_tcp_to_ws the_websocket the_reader w in
  fst r = Returned tt
  /\ map (@List.length byte) (accepted (trace (snd r))) = [4096; 904]
  /\ List.concat (accepted (trace (snd r))) = repeat x00 5000.
Proof. vm_compute. repeat split; reflexivity. Qed.

(** A cancelled pump closes the WebSocket on its way out. *)
Example tcp_to_ws_cancelled :
  let w :=
    set_ws_close_replies [Ok tt]
      (set_reader [] false [Fail CancelledError] quiet) in
  forward_tcp_to_ws the_websocket the_reader w
  = (Raised CancelledError,
     log (EvWsClose 1000 (Ok tt))
       (log (EvRead READ_SIZE (Raise CancelledError)) quiet)).
Proof. vm_compute. reflexivity. Qed.

(** ** Further properties of the pump from the WebSocket to TCP *)

Lemma ws_to_tcp_run_printed (written : list bytes) (o : outcome unit)
    (tr : list event) :
  ws_to_tcp_run written o tr -> printed tr = [].
Proof. induction 1; auto. Qed.

Lemma printed_app (tr1 tr2 : list event) :
  printed (tr1 ++ tr2) = printed tr1 ++ printed tr2.
Proof.
  induction tr1 as [|ev tr1 IH]; [reflexivity|].
  destruct ev; cbn [app printed]; try assumption. now rewrite IH.
Qed.

Lemma closed_by_pump_frame (w : World) :
  wr_out (closed_by_pump w) = wr_out w
  /\ ws_inbox (closed_by_pump w) = ws_inbox w
  /\ wr_drain_replies (closed_by_pump w) = wr_drain_replies w.
Proof.
  unfold closed_by_pump.
  destruct (transport_is_closing (tcp_state w)); repeat split; reflexivity.
Qed.

(** The classes the first [except] clause of [forward_ws_to_tcp] names are
    classes of [Exception]s. *)
Lemma silent_is_exception (e : exn) :
  isinstance_any e [WebSocketDisconnect; IncompleteReadError] = true ->
  isinstance e Exception = true.
Proof. destruct e; try reflexivity; discriminate. Qed.

(** X1.  Every run of [forward_ws_to_tcp], whatever the environment does,
    is a run of its loop followed by its report and its cleanup.  In the
    loop each non-empty message received is passed to the transport and
    then flushed before the next message is received, and nothing else is
    received.  The pump ends as the loop did, but returns where the loop
    raised an [Exception]; it is pending only at a receive or a flush that
    the environment never answers.  The run takes off the inbox exactly
    the replies it received, and the TCP stream grows by exactly the
    messages the transport took, in order: all of them while the
    connection holds, none after the transport has closed. *)
Theorem ws_to_tcp_every_run (w : World) :
  let r := forward_ws_to_tcp the_websocket the_writer w in
  exists (written : list bytes) (o1 : outcome unit) (tr ending : list event),
    trace (snd r) = trace w ++ tr ++ ending
    /\ ws_to_tcp_run written o1 tr
    /\ fst r = ws_to_tcp_result o1
    /\ (o1 = Pending ->
        ending = []
        /\ ((List.length (drained tr) = List.length written
             /\ ws_inbox (snd r) = [])
            \/ (List.length (drained tr) < List.length written
                /\ wr_drain_replies (snd r) = [])))
    /\ (o1 <> Pending ->
        exists closing : bool,
          ending =
          map EvPrint (ws_to_tcp_report o1)
          ++ EvIsClosing closing :: (if closing then [] else [EvClose]))
    /\ wr_out (snd r) = wr_out w ++ List.concat (taken (tcp_state w) written)
    /\ ws_inbox w = received tr ++ ws_inbox (snd r)
    /\ wr_drain_replies w = drained tr ++ wr_drain_replies (snd r).
Proof.
  destruct (forward_ws_to_tcp_loop_run w)
    as [written [tr [Htr [Hrun [Hout [Hin [Hdr [Hpend _]]]]]]]].
  cbv zeta in *. unfold forward_ws_to_tcp.
  rewrite forward_ws_to_tcp_upto_unfold.
  destruct (while_true _ _ w) as [o1 w1]. cbn [fst snd] in *.
  exists written, o1, tr.
  assert (Hclosed : forall (o : outcome unit) (w2 : World) (pre : list event),
    trace w2 = trace w1 ++ pre -> wr_out w2 = wr_out w1 ->
    ws_inbox w2 = ws_inbox w1 -> wr_drain_replies w2 = wr_drain_replies w1 ->
    o1 <> Pending ->
    o = ws_to_tcp_result o1 ->
    pre = map EvPrint (ws_to_tcp_report o1) ->
    exists ending : list event,
      trace (snd (o, closed_by_pump w2)) = trace w ++ tr ++ ending
      /\ ws_to_tcp_run written o1 tr
      /\ fst (o, closed_by_pump w2) = ws_to_tcp_result o1
      /\ (o1 = Pending ->
          ending = []
          /\ ((List.length (drained tr) = List.length written
               /\ ws_inbox (snd (o, closed_by_pump w2)) = [])
              \/ (List.length (drained tr) < List.length written
                  /\ wr_drain_replies (snd (o, closed_by_pump w2)) = [])))
      /\ (o1 <> Pending ->
          exists closing : bool,
            ending =
            map EvPrint (ws_to_tcp_report o1)
            ++ EvIsClosing closing :: (if closing then [] else [EvClose]))
      /\ wr_out (snd (o, closed_by_pump w2))
         = wr_out w ++ List.concat (taken (tcp_state w) written)
      /\ ws_inbox w = received tr ++ ws_inbox (snd (o, closed_by_pump w2))
      /\ wr_drain_replies w
         = drained tr ++ wr_drain_replies (snd (o, closed_by_pump w2))).
  { intros o w2 pre Htr2 Hout2 Hin2 Hdr2 Hnp Ho Hpre. cbn [fst snd].
    destruct (closed_by_pump_frame w2) as [Hfo [Hfi Hfd]].
    exists (pre ++ cleanup_events (tcp_state w2)).
    repeat match goal with |- _ /\ _ => split end.
    - rewrite closed_by_pump_trace, Htr2, Htr. now rewrite <- !app_assoc.
    - assumption.
    - assumption.
    - intros Hp. contradiction.
    - intros _. exists (transport_is_closing (tcp_state w2)).
      rewrite Hpre. unfold cleanup_events.
      now destruct (transport_is_closing (tcp_state w2)).
    - now rewrite Hfo, Hout2.
    - now rewrite Hfi, Hin2.
    - now rewrite Hfd, Hdr2. }
  unfold ws_to_tcp_report, ws_to_tcp_result in *.
  destruct o1 as [[]|e| |].
  - apply (Hclosed _ w1 []); auto using app_nil_r. discriminate.
  - destruct (isinstance_any e _) eqn:Hsilent;
      [|destruct (isinstance e Exception) eqn:He].
    + rewrite (silent_is_exception _ Hsilent) in *.
      apply (Hclosed _ w1 []); auto using app_nil_r. discriminate.
    + apply (Hclosed _ (log (EvPrint (ErrorForwardingWsToTcp e)) w1)
               [EvPrint (ErrorForwardingWsToTcp e)]); auto. discriminate.
    + apply (Hclosed _ w1 []); auto using app_nil_r. discriminate.
  - exists []. cbn [fst snd]. rewrite app_nil_r.
    repeat match goal with |- _ /\ _ => split end; auto.
    intros Hp. now destruct Hp.
  - now destruct (ws_to_tcp_run_fuel Hrun).
Qed.

(** X2.  What the pump prints: nothing when its loop returns, is pending
    or ends with the client's disconnect ([WebSocketDisconnect],
    [IncompleteReadError]) or with something that is not an [Exception];
    one line, naming the error, when the loop fails with any other
    [Exception]. *)
Theorem ws_to_tcp_reports_errors_once (w : World) :
  let o1 :=
    fst (while_true (ws_to_tcp_fuel w)
           (ws_to_tcp_iteration the_websocket the_writer) w) in
  let r := forward_ws_to_tcp the_websocket the_writer w in
  exists tr : list event,
    trace (snd r) = trace w ++ tr
    /\ printed tr = ws_to_tcp_report o1.
Proof.
  destruct (forward_ws_to_tcp_loop_run w)
    as [written [tr [Htr [Hrun [_ [_ Hst]]]]]].
  cbv zeta in *. unfold forward_ws_to_tcp.
  rewrite forward_ws_to_tcp_upto_unfold.
  destruct (while_true _ _ w) as [o1 w1]. cbn [fst snd] in *.
  pose proof (ws_to_tcp_run_printed Hrun) as Hpr.
  assert (Hcleanup : forall s, printed (cleanup_events s) = []).
  { intros s. unfold cleanup_events.
    now destruct (transport_is_closing s). }
  unfold ws_to_tcp_report.
  destruct o1 as [[]|e| |]; cbn [snd].
  - exists (tr ++ cleanup_events (tcp_state w1)). split.
    + rewrite closed_by_pump_trace, Htr. now rewrite <- app_assoc.
    + now rewrite printed_app, Hpr, Hcleanup.
  - destruct (isinstance_any e _); [|destruct (isinstance e Exception)];
      cbn [snd].
    + exists (tr ++ cleanup_events (tcp_state w1)). split.
      * rewrite closed_by_pump_trace, Htr. now rewrite <- app_assoc.
      * now rewrite printed_app, Hpr, Hcleanup.
    + exists (tr ++ EvPrint (ErrorForwardingWsToTcp e)
                 :: cleanup_events (tcp_state w1)). split.
      * rewrite closed_by_pump_trace. world_cbn. rewrite Htr.
        now rewrite <- !app_assoc.
      * rewrite printed_app, Hpr. cbn [printed app]. now rewrite Hcleanup.
    + exists (tr ++ cleanup_events (tcp_state w1)). split.
      * rewrite closed_by_pump_trace, Htr. now rewrite <- app_assoc.
      * now rewrite printed_app, Hpr, Hcleanup.
  - exists tr. split; assumption.
  - now destruct (ws_to_tcp_run_fuel Hrun).
Qed.

(** *** What the pump leaves alone *)

Lemma ws_to_tcp_frame_refl (w : World) : ws_to_tcp_frame w w.
Proof.
  exists (ws_inbox w), (wr_out w), (wr_drain_replies w), (tcp_state w),
    (trace w).
  now destruct w.
Qed.

Lemma ws_to_tcp_frame_trans (w1 w2 w3 : World) :
  ws_to_tcp_frame w1 w2 -> ws_to_tcp_frame w2 w3 -> ws_to_tcp_frame w1 w3.
Proof.
  intros [i [o [d [s [t ->]]]]] [i' [o' [d' [s' [t' ->]]]]].
  now exists i', o', d', s', t'.
Qed.

Lemma receive_bytes_frame (w : World) :
  ws_to_tcp_frame w (snd (receive_bytes the_websocket w)).
Proof.
  destruct w as [h ac inbox sd cl cn st bf eo ar out dr wc ts dn cr tk tr0].
  unfold ws_to_tcp_frame, ws_to_tcp_world, receive_bytes, awaiting.
  world_cbn.
  destruct inbox as [|[data|e] inbox]; cbn [snd]; repeat eexists.
Qed.

Lemma writer_write_frame (data : bytes) (w : World) :
  ws_to_tcp_frame w (snd (writer_write the_writer data w)).
Proof.
  destruct w as [h ac inbox sd cl cn st bf eo ar out dr wc ts dn cr tk tr0].
  unfold ws_to_tcp_frame, ws_to_tcp_world, writer_write.
  world_cbn.
  destruct st as [|[|n]| |], data as [|x data]; cbn [snd]; repeat eexists.
Qed.

Lemma writer_drain_frame (w : World) :
  ws_to_tcp_frame w (snd (writer_drain the_writer w)).
Proof.
  destruct w as [h ac inbox sd cl cn st bf eo ar out dr wc ts dn cr tk tr0].
  unfold ws_to_tcp_frame, ws_to_tcp_world, writer_drain.
  world_cbn.
  destruct dr as [|[[]|e] dr]; cbn [snd]; try (repeat eexists; fail).
  generalize (isinstance e Exception). intros []; repeat eexists.
Qed.

Lemma ws_to_tcp_iteration_frame (w : World) :
  ws_to_tcp_frame w (snd (ws_to_tcp_iteration the_websocket the_writer w)).
Proof.
  rewrite ws_to_tcp_iteration_unfold.
  pose proof (receive_bytes_frame w) as Hreceive.
  destruct (receive_bytes the_websocket w) as [[data|e| |] w1];
    cbn [snd] in *; auto.
  destruct (py_not data); [assumption|].
  pose proof (writer_write_frame data w1) as Hwrite.
  destruct (writer_write the_writer data w1) as [[[]|e| |] w2];
    cbn [snd] in *; try (eapply ws_to_tcp_frame_trans; eassumption).
  pose proof (writer_drain_frame w2) as Hdrain.
  destruct (writer_drain the_writer w2) as [[[]|e| |] w3];
    cbn [snd] in *;
    (eapply ws_to_tcp_frame_trans; [eassumption|]);
    eapply ws_to_tcp_frame_trans; eassumption.
Qed.

Lemma ws_to_tcp_loop_frame (fuel : nat) :
  forall w : World,
    ws_to_tcp_frame w
      (snd (while_true fuel (ws_to_tcp_iteration the_websocket the_writer) w)).
Proof.
  induction fuel as [|fuel IH]; intros w; [apply ws_to_tcp_frame_refl|].
  rewrite while_true_unfold.
  pose proof (ws_to_tcp_iteration_frame w) as Hit.
  destruct (ws_to_tcp_iteration the_websocket the_writer w)
    as [[[]|e| |] w1]; cbn [snd] in *; auto.
  eapply ws_to_tcp_frame_trans; [eassumption | apply IH].
Qed.

Lemma closed_by_pump_touches (w : World) :
  ws_to_tcp_frame w (closed_by_pump w).
Proof.
  unfold closed_by_pump, ws_to_tcp_frame, ws_to_tcp_world.
  destruct w as [h ac inbox sd cl cn st bf eo ar out dr wc ts dn cr tk tr0].
  destruct (transport_is_closing _); repeat eexists.
Qed.

Lemma forward_ws_to_tcp_frame (w : World) :
  ws_to_tcp_frame w (snd (forward_ws_to_tcp the_websocket the_writer w)).
Proof.
  unfold forward_ws_to_tcp. rewrite forward_ws_to_tcp_upto_unfold.
  pose proof (ws_to_tcp_loop_frame (ws_to_tcp_fuel w) w) as Hloop.
  destruct (while_true _ _ w) as [[[]|e| |] w1]; cbn [snd] in *; auto.
  - eapply ws_to_tcp_frame_trans; [eassumption | apply closed_by_pump_touches].
  - assert (Hprint : ws_to_tcp_frame w1
                       (log (EvPrint (ErrorForwardingWsToTcp e)) w1)).
    { destruct w1. unfold ws_to_tcp_frame, ws_to_tcp_world. repeat eexists. }
    destruct (isinstance_any e _); [|destruct (isinstance e Exception)];
      cbn [snd];
      (eapply ws_to_tcp_frame_trans; [exact Hloop|]);
      [ apply closed_by_pump_touches
      | eapply ws_to_tcp_frame_trans;
        [exact Hprint | apply closed_by_pump_touches]
      | apply closed_by_pump_touches ].
Qed.

(** X3.  [forward_ws_to_tcp] works on its own side only: whatever the run,
    the world it leaves differs from the one it started in at most in the
    inbox of the WebSocket, the bytes written, the replies to [drain], the
    state of the transport and the trace.  It never sends on the WebSocket
    or closes it, never reads from the TCP stream, and starts or cancels
    no task. *)
Theorem ws_to_tcp_keeps_to_its_side (w : World) :
  exists (inbox : list (reply bytes)) (out : bytes)
         (drains : list (reply unit)) (state : transport_state)
         (tr : list event),
    snd (forward_ws_to_tcp the_websocket the_writer w)
    = ws_to_tcp_world w inbox out drains state tr.
Proof. exact (forward_ws_to_tcp_frame w). Qed.

(** ** Further properties of the pump from TCP to the WebSocket *)

Lemma tcp_to_ws_frame_refl (w : World) : tcp_to_ws_frame w w.
Proof.
  exists (ws_send_replies w), (ws_close_replies w), (tcp_state w),
    (rd_buffer w), (rd_eof w), (rd_arrivals w), (trace w).
  now destruct w.
Qed.

Lemma tcp_to_ws_frame_trans (w1 w2 w3 : World) :
  tcp_to_ws_frame w1 w2 -> tcp_to_ws_frame w2 w3 -> tcp_to_ws_frame w1 w3.
Proof.
  intros [s [c [st [bf [eo [ar [t ->]]]]]]]
         [s' [c' [st' [bf' [eo' [ar' [t' ->]]]]]]].
  now exists s', c', st', bf', eo', ar', t'.
Qed.

Lemma reader_read_frame (n : nat) (w : World) :
  tcp_to_ws_frame w (snd (reader_read the_reader n w)).
Proof.
  destruct w as [h ac inbox sd cl cn st bf eo ar out dr wc ts dn cr tk tr0].
  unfold tcp_to_ws_frame, tcp_to_ws_world, reader_read. world_cbn.
  destruct n as [|n]; [repeat eexists|].
  destruct bf as [|x bf]; [|repeat eexists].
  destruct eo; [repeat eexists|].
  destruct (wait_for_transport st ar) as [data rest|rest|e rest|];
    try (repeat eexists; fail).
  generalize (isinstance e Exception). intros []; repeat eexists.
Qed.

Lemma send_bytes_frame (data : bytes) (w : World) :
  tcp_to_ws_frame w (snd (send_bytes the_websocket data w)).
Proof.
  destruct w as [h ac inbox sd cl cn st bf eo ar out dr wc ts dn cr tk tr0].
  unfold tcp_to_ws_frame, tcp_to_ws_world, send_bytes, awaiting. world_cbn.
  destruct sd as [|[[]|e] sd]; repeat eexists.
Qed.

Lemma tcp_to_ws_iteration_frame (w : World) :
  tcp_to_ws_frame w (snd (tcp_to_ws_iteration the_websocket the_reader w)).
Proof.
  rewrite tcp_to_ws_iteration_unfold.
  pose proof (reader_read_frame READ_SIZE w) as Hread.
  destruct (reader_read the_reader READ_SIZE w) as [[data|e| |] w1];
    cbn [snd] in *; auto.
  destruct (py_not data); [assumption|].
  pose proof (send_bytes_frame data w1) as Hsend.
  destruct (send_bytes the_websocket data w1) as [[[]|e| |] w2];
    cbn [snd] in *; eapply tcp_to_ws_frame_trans; eassumption.
Qed.

Lemma tcp_to_ws_loop_frame (fuel : nat) :
  forall w : World,
    tcp_to_ws_frame w
      (snd (while_true fuel (tcp_to_ws_iteration the_websocket the_reader) w)).
Proof.
  induction fuel as [|fuel IH]; intros w; [apply tcp_to_ws_frame_refl|].
  rewrite while_true_unfold.
  pose proof (tcp_to_ws_iteration_frame w) as Hit.
  destruct (tcp_to_ws_iteration the_websocket the_reader w)
    as [[[]|e| |] w1]; cbn [snd] in *; auto.
  eapply tcp_to_ws_frame_trans; [eassumption | apply IH].
Qed.

Lemma tcp_to_ws_ending_frame (o1 : outcome unit) (w1 : World) :
  tcp_to_ws_frame w1 (snd (tcp_to_ws_ending o1 w1))
  /\ tcp_state (snd (tcp_to_ws_ending o1 w1)) = tcp_state w1.
Proof.
  destruct w1 as [h ac inbox sd cl cn st bf eo ar out dr wc ts dn cr tk tr0].
  unfold tcp_to_ws_frame, tcp_to_ws_world, tcp_to_ws_ending, close_quietly.
  destruct o1 as [[]|e| |]; [ |destruct (isinstance e Exception)| | ];
    world_cbn; try (split; [repeat eexists | reflexivity]; fail);
    destruct cl as [|rep cl]; (split; [repeat eexists | reflexivity]).
Qed.

Lemma tcp_to_ws_run_events (consumed : bytes) (sent : list bytes)
    (o : outcome unit) (tr : list event) :
  tcp_to_ws_run consumed sent o tr -> Forall tcp_to_ws_event tr.
Proof. induction 1; repeat constructor; auto. Qed.

(** A run of the loop has at most one read that raises: its last call. *)
Lemma tcp_to_ws_run_read_raises (consumed : bytes) (sent : list bytes)
    (o : outcome unit) (tr : list event) :
  tcp_to_ws_run consumed sent o tr ->
  (forall e : exn, ~ In (EvRead READ_SIZE (Raise e)) tr)
  \/ exists e : exn,
       In (EvRead READ_SIZE (Raise e)) tr
       /\ forall e' : exn, In (EvRead READ_SIZE (Raise e')) tr -> e' = e.
Proof.
  induction 1 as [ |e| |data e Hne Hlen|data Hne Hlen
                 |data consumed sent o tr Hne Hlen Hrun IH].
  - left. intros e [Hev|[]]. discriminate Hev.
  - right. exists e. split; [now left|].
    intros e' [Hev|[]]. now injection Hev.
  - left. intros e [].
  - left. intros e' [Hev|[Hev|[]]]; discriminate Hev.
  - left. intros e' [Hev|[]]. discriminate Hev.
  - destruct IH as [Hnone|[e [Hin Hone]]].
    + left. intros e [Hev|[Hev|Hev]]; try discriminate Hev.
      exact (Hnone e Hev).
    + right. exists e. split; [right; now right|].
      intros e' [Hev|[Hev|Hev]]; try discriminate Hev. now apply Hone.
Qed.

(** X4.  [forward_tcp_to_ws] works on its own side only.  Whatever the
    run, its calls are reads of the TCP stream, sends on the WebSocket,
    the report of an error and the close of the WebSocket; and the world
    it leaves differs from the one it started in at most in the replies to
    sends and closes of the WebSocket, the reader, the state of the
    transport and the trace.  It never receives from the WebSocket, never
    writes to the TCP stream and never closes the TCP connection itself:
    the transport is in the state it was found in, unless a read failed
    with an [Exception], after which the transport has closed itself. *)
Theorem tcp_to_ws_keeps_to_its_side (w : World) :
  exists (sends closes : list (reply unit)) (state : transport_state)
         (buf : bytes) (eof : bool) (arr : list arrival) (tr : list event),
    snd (forward_tcp_to_ws the_websocket the_reader w)
    = tcp_to_ws_world w sends closes state buf eof arr (trace w ++ tr)
    /\ Forall tcp_to_ws_event tr
    /\ (state = tcp_state w
        \/ (state = Closing
            /\ exists e : exn,
                 isinstance e Exception = true
                 /\ In (EvRead READ_SIZE (Raise e)) tr)).
Proof.
  destruct (@tcp_to_ws_loop_runs (tcp_to_ws_fuel w) w (le_n _))
    as [consumed [sent [tr [Htr [Hrun [_ [_ [_ [Hfail Hkeep]]]]]]]]].
  pose proof (tcp_to_ws_loop_frame (tcp_to_ws_fuel w) w) as Hloop.
  unfold forward_tcp_to_ws. rewrite forward_tcp_to_ws_upto_unfold.
  cbv zeta in *.
  destruct (while_true _ _ w) as [o1 w1]. cbn [fst snd] in *.
  destruct (tcp_to_ws_ending_frame o1 w1) as [Hend Hst].
  destruct (@tcp_to_ws_ending_spec o1 w1 (tcp_to_ws_run_fuel Hrun))
    as [_ [ending [Htr' [Hev _]]]].
  cbv zeta in Htr'.
  destruct (tcp_to_ws_frame_trans Hloop Hend)
    as [s [c [st [bf [eo [ar [t Heq]]]]]]].
  rewrite Heq in Htr', Hst. unfold tcp_to_ws_world in Htr', Hst.
  world_cbn_in Htr'. world_cbn_in Hst.
  exists s, c, st, bf, eo, ar, (tr ++ ending).
  split; [|split].
  - rewrite Heq. f_equal. rewrite Htr', Htr. now rewrite app_assoc.
  - apply Forall_app. split; [exact (tcp_to_ws_run_events Hrun)|].
    eapply Forall_impl; [|exact Hev].
    intros ev. destruct ev as [ | | | | | | | | | | | | | |l]; cbn; auto.
  - rewrite Hst.
    destruct (tcp_to_ws_run_read_raises Hrun) as [Hnone|[e [Hin Hone]]].
    + left. apply Hkeep. intros e He. destruct (Hnone e He).
    + destruct (isinstance e Exception) eqn:He.
      * right. split; [now apply (Hfail e)|].
        exists e. split; [assumption|]. apply in_or_app. now left.
      * left. apply Hkeep. intros e' He'. now rewrite (Hone e' He').
Qed.

(** The pump at [world_connection_reset]: the failed read is reported, the
    WebSocket is closed, and the transport, which has closed itself, is
    closing though nothing called [writer.close()]. *)
Example tcp_to_ws_connection_reset :
  let r :=
    forward_tcp_to_ws the_websocket the_reader world_connection_reset in
  fst r = Returned tt
  /\ tcp_state (snd r) = Closing
  /\ trace (snd r) =
     [EvRead READ_SIZE (Raise ConnectionResetError);
      EvPrint (ErrorForwardingTcpToWs ConnectionResetError);
      EvWsClose 1000 (Ok tt)].
Proof. vm_compute. repeat split; reflexivity. Qed.

Lemma accepted_app (tr1 tr2 : list event) :
  accepted (tr1 ++ tr2) = accepted tr1 ++ accepted tr2.
Proof.
  induction tr1 as [|ev tr1 IH]; [reflexivity|].
  destruct ev as [ | |data [[]|e]| | | | | | | | | | | | ];
    cbn [app accepted]; try assumption.
  now rewrite IH.
Qed.

Lemma accepted_ending (ending : list event) :
  Forall tcp_to_ws_ending_event ending -> accepted ending = [].
Proof.
  induction 1 as [|ev ending Hev _ IH]; [reflexivity|].
  destruct ev; cbn in Hev; try contradiction; exact IH.
Qed.

(** What the pump takes off the TCP stream, accounted for. *)
Lemma forward_tcp_to_ws_accounting (w : World) :
  let r := forward_tcp_to_ws the_websocket the_reader w in
  exists (tr : list event) (lost : bytes),
    trace (snd r) = trace w ++ tr
    /\ pending_bytes w
       = List.concat (accepted tr) ++ lost ++ pending_bytes (snd r)
    /\ List.length lost <= READ_SIZE
    /\ (lost <> [] ->
        fst r = Pending \/ exists e, In (EvSendBytes lost (Raise e)) tr).
Proof.
  destruct (forward_tcp_to_ws_exits w)
    as [o1 [w1 [consumed [sent [tr [Htr [Hrun [Hpend [Hcl Heq]]]]]]]]].
  cbv zeta. rewrite Heq.
  destruct (@tcp_to_ws_ending_spec o1 w1 (tcp_to_ws_run_fuel Hrun))
    as [Hpend' [ending [Htr' [Hev _]]]].
  destruct (tcp_to_ws_run_lost Hrun) as [lost [Hc [Hl Hwhy]]].
  exists (tr ++ ending), lost. repeat split.
  - now rewrite Htr', Htr, app_assoc.
  - rewrite accepted_app, (accepted_ending Hev), app_nil_r.
    rewrite (tcp_to_ws_run_accepted Hrun), Hpend', Hpend, Hc.
    now rewrite <- !app_assoc.
  - assumption.
  - intros Hlost. destruct (Hwhy Hlost) as [Hp|[e He]].
    + left. now subst o1.
    + right. exists e. apply in_or_app. now left.
Qed.

(** X5.  The pump duplicates nothing and loses at most one chunk: in every
    run, the bytes it takes off the TCP stream are the accepted messages,
    in order, followed by at most [READ_SIZE] bytes read but not
    delivered; and bytes are lost only when the send that carried them
    failed, or never resolved. *)
Theorem tcp_to_ws_loses_at_most_one_chunk (w : World) :
  let r := forward_tcp_to_ws the_websocket the_reader w in
  exists (tr : list event) (lost : bytes),
    trace (snd r) = trace w ++ tr
    /\ pending_bytes w
       = List.concat (accepted tr) ++ lost ++ pending_bytes (snd r)
    /\ List.length lost <= READ_SIZE
    /\ (lost <> [] ->
        fst r = Pending \/ exists e, In (EvSendBytes lost (Raise e)) tr).
Proof. exact (forward_tcp_to_ws_accounting w). Qed.

Lemma tcp_to_ws_run_printed (consumed : bytes) (sent : list bytes)
    (o : outcome unit) (tr : list event) :
  tcp_to_ws_run consumed sent o tr -> printed tr = [].
Proof. induction 1; auto. Qed.

(** X6.  What [forward_tcp_to_ws] prints: one line, naming the error, when
    its loop fails with an [Exception] of any class (a disconnect of the
    client during a send included); nothing when the loop ends at the end
    of the stream, is pending, or ends with something that is not an
    [Exception].  A failure of the closing [websocket.close()] is never
    reported. *)
Theorem tcp_to_ws_reports_errors_once (w : World) :
  let o1 :=
    fst (while_true (tcp_to_ws_fuel w)
           (tcp_to_ws_iteration the_websocket the_reader) w) in
  let r := forward_tcp_to_ws the_websocket the_reader w in
  exists tr : list event,
    trace (snd r) = trace w ++ tr
    /\ printed tr = tcp_to_ws_report o1.
Proof.
  destruct (@tcp_to_ws_loop_runs (tcp_to_ws_fuel w) w (le_n _))
    as [consumed [sent [tr [Htr [Hrun _]]]]].
  cbv zeta in *. unfold forward_tcp_to_ws.
  rewrite forward_tcp_to_ws_upto_unfold. cbv zeta.
  destruct (while_true _ _ w) as [o1 w1]. cbn [fst snd] in *.
  pose proof (tcp_to_ws_run_printed Hrun) as Hpr.
  assert (Hclose : forall (o : outcome unit) (w2 : World) (pre : list event),
    trace w2 = trace w ++ tr ++ pre ->
    exists tr' : list event,
      trace (snd (close_quietly o w2)) = trace w ++ tr'
      /\ printed tr' = printed pre).
  { intros o w2 pre Htr2. unfold close_quietly.
    destruct (ws_close_replies w2) as [|rep rest]; cbn [snd].
    - exists (tr ++ pre). split; [assumption|].
      now rewrite printed_app, Hpr.
    - exists (tr ++ pre ++ [EvWsClose 1000 rep]). split.
      + world_cbn. rewrite Htr2. now rewrite <- !app_assoc.
      + rewrite !printed_app, Hpr. cbn [printed app]. now rewrite app_nil_r. }
  unfold tcp_to_ws_ending, tcp_to_ws_report.
  destruct o1 as [[]|e| |].
  - apply (Hclose _ w1 []). now rewrite app_nil_r.
  - destruct (isinstance e Exception).
    + apply (Hclose _ _ [EvPrint (ErrorForwardingTcpToWs e)]).
      world_cbn. rewrite Htr. now rewrite <- app_assoc.
    + apply (Hclose _ w1 []). now rewrite app_nil_r.
  - exists tr. split; assumption.
  - exists tr. split; assumption.
Qed.

(** ** What is not an [Exception] passes through the pumps *)

(** X7.  Cancellation is not swallowed.  When the loop of a pump ends with
    an exception that is not an [Exception] (a [CancelledError], a
    [KeyboardInterrupt]), [forward_ws_to_tcp] raises that same exception,
    after closing the transport and without printing; and
    [forward_tcp_to_ws] raises it once its close of the WebSocket has
    resolved or failed with an [Exception], and raises the exception of
    the close instead when that one is not an [Exception] either. *)
Theorem cancellation_passes_through_pumps (w : World) (e : exn) :
  isinstance e Exception = false ->
  (fst (while_true (ws_to_tcp_fuel w)
          (ws_to_tcp_iteration the_websocket the_writer) w) = Raised e ->
   let r := forward_ws_to_tcp the_websocket the_writer w in
   fst r = Raised e /\ tcp_state (snd r) = Closing)
  /\ (fst (while_true (tcp_to_ws_fuel w)
             (tcp_to_ws_iteration the_websocket the_reader) w) = Raised e ->
      forall (rep : reply unit) (rest : list (reply unit)),
        ws_close_replies w = rep :: rest ->
        fst (forward_tcp_to_ws the_websocket the_reader w)
        = swallow (Raised e) rep).
Proof.
  intros He. split.
  - intros Hloop. cbv zeta. unfold forward_ws_to_tcp.
    rewrite forward_ws_to_tcp_upto_unfold.
    destruct (while_true _ _ w) as [o1 w1]. cbn [fst] in Hloop. subst o1.
    destruct (isinstance_any e _) eqn:Hsilent.
    + apply silent_is_exception in Hsilent. congruence.
    + rewrite He. cbn [fst snd]. split; [reflexivity|].
      apply closed_by_pump_state.
  - intros Hloop rep rest Hcl. unfold forward_tcp_to_ws.
    rewrite forward_tcp_to_ws_upto_unfold. cbv zeta.
    destruct (@tcp_to_ws_loop_runs (tcp_to_ws_fuel w) w (le_n _))
      as [consumed [sent [tr [_ [_ [_ [Hsame _]]]]]]].
    cbv zeta in Hsame.
    destruct (while_true _ _ w) as [o1 w1]. cbn [fst snd] in *. subst o1.
    unfold tcp_to_ws_ending, close_quietly. rewrite He, Hsame, Hcl.
    reflexivity.
Qed.

Lemma cancellation_passes_through_pumps_witness :
  fst (forward_ws_to_tcp the_websocket the_writer world_cancelled)
  = Raised CancelledError
  /\ fst (forward_tcp_to_ws the_websocket the_reader world_cancelled)
     = Raised CancelledError.
Proof.
  destruct (@cancellation_passes_through_pumps world_cancelled CancelledError
              eq_refl) as [Hws Htcp].
  split.
  - apply Hws. vm_compute. reflexivity.
  - apply (Htcp (ltac:(vm_compute; reflexivity)) (Ok tt) []). reflexivity.
Defined.

(** ** The two pumps, one after the other *)

(** A read on a closed transport takes no segment off the arrivals. *)
Lemma reader_read_closed (n : nat) (w : World) :
  tcp_state w = Closing ->
  let r := reader_read the_reader n w in
  fed (rd_arrivals (snd r)) = fed (rd_arrivals w)
  /\ tcp_state (snd r) = Closing.
Proof.
  intros Hst.
  destruct w as [h ac inbox sd cl cn st bf eo ar out dr wc ts dn cr tk tr0].
  cbn [tcp_state] in Hst. subst st.
  unfold reader_read, wait_for_transport. world_cbn.
  cbn [transport_is_closing].
  destruct n as [|n]; [now split|].
  destruct bf as [|x bf]; [|now split].
  destruct eo; [now split|].
  pose proof (wait_for_end_spec ar) as Hend.
  destruct (wait_for_end ar) as [data rest|rest|e rest|]; cbn [fst snd].
  - contradiction.
  - destruct Hend as [Hfed _]. now split.
  - destruct Hend as [Hfed _].
    generalize (isinstance e Exception). intros []; now split.
  - now split.
Qed.

Lemma send_bytes_reader (data : bytes) (w : World) :
  let r := send_bytes the_websocket data w in
  rd_arrivals (snd r) = rd_arrivals w /\ tcp_state (snd r) = tcp_state w.
Proof.
  unfold send_bytes, awaiting.
  destruct (ws_send_replies w) as [|[[]|e] sd]; now split.
Qed.

Lemma tcp_to_ws_loop_closed (fuel : nat) :
  forall w : World,
    tcp_state w = Closing ->
    let r := while_true fuel (tcp_to_ws_iteration the_websocket the_reader) w in
    fed (rd_arrivals (snd r)) = fed (rd_arrivals w)
    /\ tcp_state (snd r) = Closing.
Proof.
  induction fuel as [|fuel IH]; intros w Hst; [now split|].
  cbv zeta. rewrite while_true_unfold, tcp_to_ws_iteration_unfold.
  pose proof (@reader_read_closed READ_SIZE w Hst) as Hread.
  cbv zeta in Hread. revert Hread.
  destruct (reader_read the_reader READ_SIZE w) as [[data|e| |] w1];
    cbn [fst snd]; intros [Hfed Hst1]; try (now split).
  destruct (py_not data); [now split|].
  pose proof (send_bytes_reader data w1) as Hsend.
  cbv zeta in Hsend. revert Hsend.
  destruct (send_bytes the_websocket data w1) as [[[]|e| |] w2];
    cbn [fst snd]; intros [Har Hst2]; try (split; congruence).
  destruct (IH w2) as [Hfed2 Hst3]; [congruence|].
  cbv zeta in Hfed2, Hst3. split; congruence.
Qed.

Lemma tcp_to_ws_ending_reader (o1 : outcome unit) (w1 : World) :
  rd_arrivals (snd (tcp_to_ws_ending o1 w1)) = rd_arrivals w1.
Proof.
  unfold tcp_to_ws_ending, close_quietly.
  destruct o1 as [[]|e| |]; [ |destruct (isinstance e Exception)| | ];
    world_cbn; try reflexivity;
    destruct (ws_close_replies w1); reflexivity.
Qed.

(** X8.  Once [forward_ws_to_tcp] has exited, however it did, the
    transport is closed, and [forward_tcp_to_ws] run in the world it
    leaves delivers nothing but what the reader had buffered by then: the
    segments the peer still has in flight are never read.  Of the buffered
    bytes the accepted messages are a prefix, in order, and at most one
    chunk is lost, to a send that failed or never resolved. *)
Theorem tcp_to_ws_after_ws_to_tcp (w : World) :
  let r1 := forward_ws_to_tcp the_websocket the_writer w in
  let r2 := forward_tcp_to_ws the_websocket the_reader (snd r1) in
  fst r1 <> Pending ->
  exists (tr : list event) (lost : bytes),
    trace (snd r2) = trace (snd r1) ++ tr
    /\ rd_buffer w = List.concat (accepted tr) ++ lost ++ rd_buffer (snd r2)
    /\ fed (rd_arrivals (snd r2)) = fed (rd_arrivals w)
    /\ List.length lost <= READ_SIZE
    /\ (lost <> [] ->
        fst r2 = Pending \/ exists e, In (EvSendBytes lost (Raise e)) tr).
Proof.
  intros r1 r2 Hexit.
  destruct (forward_ws_to_tcp_exits w) as [_ [_ Hclosed]].
  destruct (Hclosed Hexit) as [w0 [Hw0 _]].
  assert (Hst : tcp_state (snd r1) = Closing).
  { subst r1. rewrite Hw0. apply closed_by_pump_state. }
  destruct (forward_ws_to_tcp_frame w) as [inbox [out [dr [st [t Hframe]]]]].
  fold r1 in Hframe. clearbody r1. clear Hclosed Hw0 w0 Hexit.
  assert (Hbuf : rd_buffer (snd r1) = rd_buffer w) by now rewrite Hframe.
  assert (Harr : rd_arrivals (snd r1) = rd_arrivals w) by now rewrite Hframe.
  destruct (forward_tcp_to_ws_accounting (snd r1))
    as [tr [lost [Htr [Hacc [Hlen Hwhy]]]]].
  fold r2 in Htr, Hacc, Hwhy.
  assert (Hfed : fed (rd_arrivals (snd r2)) = fed (rd_arrivals w)).
  { subst r2. unfold forward_tcp_to_ws.
    rewrite forward_tcp_to_ws_upto_unfold. cbv zeta.
    rewrite tcp_to_ws_ending_reader, <- Harr.
    apply (tcp_to_ws_loop_closed _ _ Hst). }
  exists tr, lost. repeat split; auto.
  unfold pending_bytes in Hacc. rewrite Hbuf, Harr, Hfed in Hacc.
  rewrite !app_assoc in Hacc. apply app_inv_tail in Hacc.
  now rewrite <- !app_assoc in Hacc.
Qed.

Lemma tcp_to_ws_after_ws_to_tcp_witness :
  let r1 :=
    forward_ws_to_tcp the_websocket the_writer world_client_leaves in
  let r2 := forward_tcp_to_ws the_websocket the_reader (snd r1) in
  exists (tr : list event) (lost : bytes),
    trace (snd r2) = trace (snd r1) ++ tr
    /\ b "tail" = List.concat (accepted tr) ++ lost ++ rd_buffer (snd r2)
    /\ fed (rd_arrivals (snd r2)) = b "late".
Proof.
  destruct (@tcp_to_ws_after_ws_to_tcp world_client_leaves)
    as [tr [lost [Htr [Hbuf [Hfed _]]]]].
  - vm_compute. discriminate.
  - exists tr, lost. repeat split; assumption.
Defined.

(** The same run, call by call: the buffered bytes are relayed, the end of
    the stream is read, and the segment in flight is not. *)
Example tcp_to_ws_after_client_left :
  let r1 :=
    forward_ws_to_tcp the_websocket the_writer world_client_leaves in
  let r2 := forward_tcp_to_ws the_websocket the_reader (snd r1) in
  fst r2 = Returned tt
  /\ trace (snd r2) =
     [EvReceiveBytes (Raise WebSocketDisconnect); EvIsClosing false; EvClose;
      EvRead READ_SIZE (Ok (b "tail")); EvSendBytes (b "tail") (Ok tt);
      EvRead READ_SIZE (Ok []); EvWsClose 1000 (Ok tt)].
Proof. vm_compute. split; reflexivity. Qed.

(** ** Further properties of the coordinator *)

Lemma sleep_until_woken (rw : return_when) (fs : list task)
    (ticks : list tick) :
  forall (done d : list task) (rest : list tick),
    sleep_until rw fs done ticks = Woken d rest ->
    wait_satisfied rw fs d = true.
Proof.
  induction ticks as [|[ts|] ticks IH]; intros done d rest; cbn [sleep_until];
    destruct (wait_satisfied rw fs done) eqn:Hs; intros H;
    try discriminate; try (injection H as <- _; exact Hs).
  eapply IH; eassumption.
Qed.

Ltac trace_normal :=
  world_cbn; rewrite <- ?app_assoc; cbn [app].

Ltac lifecycle_path :=
  repeat (first
    [ apply lifecycle_nil
    | eapply lifecycle_cons;
      [ econstructor; solve [assumption | discriminate | auto with datatypes]
      | ] ]).

(** X9.  Every session follows the same life, whatever the environment
    does.  The calls of [websockify] are a path of [lifecycle_step] from
    [Negotiating]: accept, greeting, one connect to [localhost] at the
    port asked for; after a refusal a report and one close of the
    WebSocket with code 1011; after a connect the two pumps, one wait for
    the first of them, the cancellation of the others among those two, one
    wait for the connection to close and the farewell.  The session
    returns exactly when the path ends in [Closed], raises exactly the
    error the path failed with (or the cancellation that interrupted the
    wait for the pumps), and is pending only at one of its five awaits. *)
Theorem websockify_follows_lifecycle (w : World) (port : Z) :
  let r := websockify the_websocket port w in
  exists (tr : list event) (ph : phase),
    trace (snd r) = trace w ++ tr
    /\ lifecycle port Negotiating tr ph
    /\ ends_in (fst r) ph.
Proof.
  cbv zeta. rewrite websockify_unfold. cbv zeta.
  set (sel := negotiate _). clearbody sel.
  destruct w as [h ac inbox sd cl cn st bf eo ar out dr wc tasks dn cr tk tr0].
  unfold accept, awaiting. world_cbn.
  destruct ac as [|[[]|e] ac]; cbn [fst snd]; trace_normal.
  { exists [], Negotiating. rewrite app_nil_r.
    repeat split; constructor. }
  2:{ eexists _, (Failed e). split; [reflexivity|].
      split; [lifecycle_path | now left]. }
  unfold websockify_accepted, try_except, open_connection, awaiting, print.
  run_bind. world_cbn.
  destruct cn as [|[[]|e] cn]; cbn [fst snd dispatch catches handler];
    trace_normal.
  { eexists _, Connecting. split; [reflexivity|].
    split; [lifecycle_path | exact I]. }
  2:{ destruct (isinstance e OSError) eqn:He.
      - unfold ws_close, awaiting. run_bind. world_cbn.
        destruct cl as [|[[]|e'] cl]; cbn [fst snd]; trace_normal.
        + eexists _, Rejecting. split; [reflexivity|].
          split; [lifecycle_path | exact I].
        + eexists _, Closed. split; [reflexivity|].
          split; [lifecycle_path | reflexivity].
        + eexists _, (Failed e'). split; [reflexivity|].
          split; [lifecycle_path | now left].
      - cbn [fst snd]. trace_normal.
        eexists _, (Failed e). split; [reflexivity|].
        split; [lifecycle_path | now left]. }
  unfold create_task. world_cbn.
  rewrite length_app, Nat.add_1_r. cbn [List.length].
  unfold asyncio_wait. world_cbn.
  destruct (sleep_until _ _ dn tk) as [d rest|d rest|d] eqn:Hs;
    cbn [fst snd]; trace_normal.
  2:{ eexists _, (Forwarding _ _). split; [reflexivity|].
      split; [lifecycle_path | right; split; [reflexivity|]; eauto]. }
  2:{ eexists _, (Forwarding _ _). split; [reflexivity|].
      split; [lifecycle_path | exact I]. }
  apply sleep_until_woken in Hs. cbn [wait_satisfied existsb] in Hs.
  rewrite orb_false_r in Hs. cbn [filter].
  assert (Hincl : forall b0 b1 : bool,
    incl ((if b0 then [List.length tasks] else [])
          ++ (if b1 then [S (List.length tasks)] else []))
      [List.length tasks; S (List.length tasks)]).
  { intros [] []; cbn; auto with datatypes. }
  destruct (is_done d (List.length tasks)) eqn:E0;
    destruct (is_done d (S (List.length tasks))) eqn:E1;
    try discriminate Hs;
    cbn [negb for_each]; run_bind; unfold task_cancel; world_cbn;
    rewrite ?E0, ?E1;
    unfold writer_wait_closed, awaiting; world_cbn;
    (destruct wc as [|[[]|e] wc];
     [ | | cbn [dispatch catches handler];
           destruct (isinstance e Exception) eqn:He ]);
    cbn [fst snd]; trace_normal.
  all: try (eexists _, (Cancelling []); split; [reflexivity|];
            split; [lifecycle_path | exact I]).
  all: try (eexists _, Closed; split; [reflexivity|];
            split; [lifecycle_path | reflexivity]).
  all: try (eexists _, (Failed e); split; [reflexivity|];
            split; [lifecycle_path | now left]).
Qed.

(** Iterations of the event loop in which neither task finishes leave the
    waiter asleep. *)
Lemma sleep_until_through_quiet (t0 t1 : task) (quiet : list (list task))
    (rest : list tick) :
  forall done : list task,
    is_done done t0 = false ->
    is_done done t1 = false ->
    both_running t0 t1 quiet = true ->
    sleep_until FIRST_COMPLETED [t0; t1] done (map Finishes quiet ++ rest)
    = sleep_until FIRST_COMPLETED [t0; t1] (done ++ List.concat quiet) rest
    /\ wait_satisfied FIRST_COMPLETED [t0; t1] (done ++ List.concat quiet)
       = false.
Proof.
  induction quiet as [|q quiet IH]; intros done H0 H1 Hq;
    cbn [map app List.concat].
  - rewrite app_nil_r. split; [reflexivity|]. cbn. now rewrite H0, H1.
  - cbn [both_running forallb] in Hq. apply andb_prop in Hq.
    destruct Hq as [Hq0 Hq]. apply andb_prop in Hq0.
    destruct Hq0 as [Hq0 Hq1]. apply negb_true_iff in Hq0, Hq1.
    rewrite sleep_until_unsatisfied by (cbn; now rewrite H0, H1).
    rewrite app_assoc. apply IH; auto.
    + now rewrite is_done_app, H0, Hq0.
    + now rewrite is_done_app, H1, Hq1.
Qed.

(** X10.  A session whose pumps do not finish.  Once connected, the
    coordinator has no way out of its wait but the end of a pump: while
    neither finishes it stays pending, however many iterations the event
    loop runs (there is no timeout); and when the coordinator itself is
    cancelled in that wait, the [CancelledError] leaves [websockify] at
    once: no pump is cancelled, the close of the connection is not waited
    for and no farewell is printed. *)
Theorem session_without_a_finished_pump (w : World) (port : Z)
    (accepts connects : list (reply unit)) (quiet : list (list task)) :
  let task_ws_to_tcp := List.length (loop_tasks w) in
  let task_tcp_to_ws := S (List.length (loop_tasks w)) in
  let selected_subprotocol :=
    negotiate (headers_lookup (ws_headers w) "sec-websocket-protocol" "") in
  let r := websockify the_websocket port w in
  let only_spawned :=
    trace (snd r)
    = trace w
      ++ [EvAccept selected_subprotocol (Ok tt);
          EvPrint (ClientConnected port selected_subprotocol);
          EvOpenConnection "localhost" port (Ok tt);
          EvCreateTask (co_forward_ws_to_tcp the_websocket the_writer)
            task_ws_to_tcp;
          EvCreateTask (co_forward_tcp_to_ws the_websocket the_reader)
            task_tcp_to_ws]
    /\ loop_cancel_requested (snd r) = loop_cancel_requested w
    /\ wr_wait_closed_replies (snd r) = wr_wait_closed_replies w in
  ws_accept_replies w = Ok tt :: accepts ->
  tcp_connect_replies w = Ok tt :: connects ->
  is_done (loop_done w) task_ws_to_tcp = false ->
  is_done (loop_done w) task_tcp_to_ws = false ->
  both_running task_ws_to_tcp task_tcp_to_ws quiet = true ->
  (loop_ticks w = map Finishes quiet -> fst r = Pending /\ only_spawned)
  /\ (forall later : list tick,
        loop_ticks w = map Finishes quiet ++ CancelWaiter :: later ->
        fst r = Raised CancelledError
        /\ only_spawned
        /\ loop_ticks (snd r) = later).
Proof.
  intros t0 t1 sel r only_spawned Hac Hcn Hnd0 Hnd1 Hq.
  subst only_spawned r. rewrite websockify_unfold. fold sel. cbv zeta.
  pose proof (fun rest =>
    @sleep_until_through_quiet t0 t1 quiet rest (loop_done w) Hnd0 Hnd1 Hq)
    as Hsleep.
  revert Hsleep. subst t0 t1.
  destruct w as [h ac inbox sd cl cn st bf eo ar out dr wc tasks dn cr tk tr].
  cbn [ws_accept_replies tcp_connect_replies loop_ticks loop_done loop_tasks
       wr_wait_closed_replies] in *.
  subst ac cn. intros Hsleep.
  unfold accept, awaiting. world_cbn.
  unfold websockify_accepted, try_except, open_connection, awaiting, print.
  run_bind. world_cbn.
  unfold create_task. world_cbn.
  rewrite length_app, Nat.add_1_r. cbn [List.length].
  unfold asyncio_wait. world_cbn.
  split.
  - intros ->. destruct (Hsleep []) as [Hs Hw]. rewrite app_nil_r in Hs.
    rewrite Hs. cbn [sleep_until]. rewrite Hw. cbn [fst snd]. trace_normal.
    repeat split; reflexivity.
  - intros later ->. destruct (Hsleep (CancelWaiter :: later)) as [Hs Hw].
    rewrite Hs. cbn [sleep_until]. rewrite Hw. cbn [fst snd]. trace_normal.
    repeat split; reflexivity.
Qed.

Lemma session_without_a_finished_pump_witness :
  fst (websockify the_websocket 5900%Z world_handler_cancelled)
  = Raised CancelledError
  /\ loop_cancel_requested
       (snd (websockify the_websocket 5900%Z world_handler_cancelled)) = [].
Proof.
  destruct (@session_without_a_finished_pump world_handler_cancelled 5900%Z
              [] [] [[]] eq_refl eq_refl eq_refl eq_refl eq_refl)
    as [_ Hcancelled].
  destruct (Hcancelled [Finishes [0]] eq_refl) as [Hout [[_ [Hreq _]] _]].
  split; [exact Hout | exact Hreq].
Defined.

(** ** Further properties of the negotiation *)

Lemma split_not_nil (sep : ascii) (s : string) : split sep s <> [].
Proof.
  destruct s as [|c s]; cbn [split]; [discriminate|].
  destruct (Ascii.eqb c sep); [discriminate|].
  destruct (split sep s); discriminate.
Qed.

(** [(a + sep + b).split(sep)] is [a.split(sep) + b.split(sep)]. *)
Lemma split_join (sep : ascii) (a b : string) :
  split sep (a ++ String sep b)%string = split sep a ++ split sep b.
Proof.
  induction a as [|c a IH]; cbn [String.append split].
  - now rewrite Ascii.eqb_refl.
  - rewrite IH. destruct (Ascii.eqb c sep); [reflexivity|].
    pose proof (split_not_nil sep a) as Hne.
    destruct (split sep a); [congruence | reflexivity].
Qed.

Lemma select_subprotocol_app (l1 l2 : list string) :
  select_subprotocol (l1 ++ l2) None =
  match select_subprotocol l1 None with
  | Some proto => Some proto
  | None => select_subprotocol l2 None
  end.
Proof.
  induction l1 as [|proto l1 IH]; cbn [app select_subprotocol];
    [reflexivity|].
  destruct (String.eqb (strip proto) "binary"); [reflexivity | exact IH].
Qed.

(** X11.  The candidates of the header are judged one by one: the
    selection for two lists of subprotocols joined by a comma is the
    selection for the first list when it has one, and that for the second
    otherwise.  So what else the client offers, before or after [binary],
    never changes the selection. *)
Theorem negotiate_join (a b : string) :
  negotiate (a ++ "," ++ b)%string =
  match negotiate a with
  | Some proto => Some proto
  | None => negotiate b
  end.
Proof.
  unfold negotiate. cbn [String.append].
  now rewrite split_join, select_subprotocol_app.
Qed.
